(** * PostgresSaver: the Postgres checkpoint saver of
    [libs/checkpoint-postgres/src/index.ts]

    A shallow embedding of the saver's row codec, query builder and
    transactional store operations, followed by the properties the
    specification states about them. *)

From stdpp Require Import gmap strings list fin_maps pretty sorting.
From Stdlib Require Import ZArith Strings.Byte.

Local Open Scope Z_scope.

(** ** JavaScript values

    The TypeScript [any]: the payloads handed to the serializer and the
    positional arguments of a parameterised query.  An object is the
    finite map of its own properties; what it inherits is looked up in
    the realm's [Object.prototype] (below).  A function is known by its
    name only. *)

#[warnings="-register-all"]
Inductive any : Type :=
| Undefined
| Null
| Bool (b : bool)
| Num (n : Z)
| Str (s : string)
| Bytes (bs : list byte)
| Arr (xs : list any)
| Obj (fields : gmap string any)
| Fun (name : string).

(** An entry of [configurable] read as a query argument or a row cell: a
    missing key reads as [undefined]. *)
Definition js_of_opt (o : option string) : any :=
  match o with
  | Some s => Str s
  | None => Undefined
  end.

(** JavaScript truthiness of an optional string: [undefined] and the empty
    string are falsy. *)
Definition truthy (o : option string) : bool :=
  match o with
  | Some s => negb (String.eqb s EmptyString)
  | None => false
  end.

(** [s.includes(needle)]. *)
Fixpoint includes (needle s : string) : bool :=
  String.prefix needle s ||
  match s with
  | EmptyString => false
  | String _ s' => includes needle s'
  end.

(** [str.replace(/\u0000/g, "")]. *)
Fixpoint strip_nul (s : string) : string :=
  match s with
  | EmptyString => EmptyString
  | String c s' =>
      if Ascii.eqb c Ascii.zero then strip_nul s' else String c (strip_nul s')
  end.

(** [Object.fromEntries(entries)]: entries are written left to right, so a
    later entry overwrites an earlier one with the same key. *)
Definition Object_fromEntries (entries : list (string * any)) : gmap string any :=
  foldl (λ m kv, <[kv.1 := kv.2]> m) ∅ entries.

(** The realm the saver runs in: the properties every ordinary object
    inherits from [Object.prototype], and the order in which
    [Object.entries] lists the own properties of an object (insertion
    order, which a finite map does not keep): each own entry once. *)
Class Realm := {
  Object_prototype : gmap string any;
  Object_entries : ∀ {A : Type}, gmap string A → list (string * A);
  Object_entries_own :
    ∀ (A : Type) (o : gmap string A), Object_entries o ≡ₚ map_to_list o;
}.

(** [k in o] for an ordinary object with own properties [o]: own or
    inherited. *)
Definition js_in `{Realm} {A : Type} (k : string) (o : gmap string A) : bool :=
  bool_decide (is_Some (o !! k)) || bool_decide (is_Some (Object_prototype !! k)).

(** [o[k]] for an ordinary object with own properties [o]: the own
    property, else the inherited one, else [undefined]. *)
Definition js_get `{Realm} (o : gmap string any) (k : string) : any :=
  match o !! k with
  | Some v => v
  | None => default Undefined (Object_prototype !! k)
  end.

(** Optional chaining [o?.f]: [undefined] when [o] is. *)
Definition opt_chain {A B} (o : option A) (f : A → option B) : option B :=
  match o with
  | Some a => f a
  | None => None
  end.

Notation "o ?. f" := (opt_chain o f) (at level 19, left associativity).

(** [arr[i]] for a numeric index: [undefined] out of range. *)
Definition js_index {A} (l : list A) (i : Z) : option A :=
  if i <? 0 then None else l !! Z.to_nat i.

(** ** Injected and imported capabilities *)

(** [SerializerProtocol] of the checkpoint package ([this.serde]). *)
Class SerializerProtocol := {
  dumpsTyped : any → string * list byte;
  loadsTyped : string → list byte → any;
}.

(** The platform functions [new TextDecoder().decode], [JSON.stringify]
    and the [toString()] of the byte arrays the driver returns. *)
Class Platform := {
  TextDecoder_decode : list byte → string;
  JSON_stringify : any → string;
  bytes_toString : list byte → string;
}.

(** The statement texts imported from [./sql.js].  That module is not among
    the sources, so its constants are parameters of the development. *)
Class SqlModule := {
  SELECT_SQL : string;
  UPSERT_CHECKPOINT_BLOBS_SQL : string;
  UPSERT_CHECKPOINT_WRITES_SQL : string;
  UPSERT_CHECKPOINTS_SQL : string;
  INSERT_CHECKPOINT_WRITES_SQL : string;
}.

(** A channel version is [number | string] in the checkpoint package; only
    its [toString()] is used here, so the type and that method are
    parameters. *)
Class VersionToken (V : Type) := version_toString : V → string.

(** ** Data model *)

Record Configurable := {
  thread_id : option string;
  checkpoint_ns : option string;
  checkpoint_id : option string;
}.

Record RunnableConfig := {
  configurable : option Configurable;
}.

(** The [Checkpoint] interface of the checkpoint package.  The saver reads
    [id], [channel_values] and [pending_sends]; every other property of
    the object travels in [other_fields]. *)
Record Checkpoint := {
  id : string;
  channel_values : gmap string any;
  pending_sends : list any;
  other_fields : gmap string any;
}.

(** The object a [Checkpoint] is at run time, as the serializer sees it. *)
Definition Checkpoint_object (c : Checkpoint) : gmap string any :=
  <["pending_sends" := Arr (pending_sends c)]>
    (<["channel_values" := Obj (channel_values c)]>
       (<["id" := Str (id c)]> (other_fields c))).

(** [Omit<Checkpoint, "pending_sends" | "channel_values">]. *)
Record StoredCheckpoint := {
  sc_id : string;
  sc_other_fields : gmap string any;
}.

Definition stored_blob : Type := list byte * list byte * list byte.
Definition stored_write : Type := list byte * list byte * list byte * list byte.
Definition stored_send : Type := list byte * list byte.

Record CheckpointRow := {
  row_checkpoint : StoredCheckpoint;
  row_metadata : gmap string any;
  row_parent_checkpoint_id : option string;
  row_thread_id : string;
  row_checkpoint_id : string;
  row_checkpoint_ns : option string;
  row_channel_values : option (list stored_blob);
  row_pending_writes : option (list stored_write);
  row_pending_sends : option (list stored_send);
}.

Record CheckpointTuple := {
  tuple_config : RunnableConfig;
  tuple_checkpoint : Checkpoint;
  tuple_metadata : any;
  tuple_parentConfig : option RunnableConfig;
  tuple_pendingWrites : list (string * string * any);
}.

Definition PendingWrite : Type := string * any.

(** Rows produced by the codec, as the tuples of the source. *)
Definition blob_row : Type :=
  option string * option string * string * string * string * option (list byte).

Definition write_row : Type :=
  option string * option string * option string * string * any * string * string
  * list byte.

(** ** Row codec *)

Section RowCodec.
Context `{serde : SerializerProtocol} `{platform : Platform} `{realm : Realm}.
Context {V : Type} `{VersionToken V}.
Context (WRITES_IDX_MAP : gmap string Z).

Definition _loadBlobs (blobValues : option (list stored_blob))
  : gmap string any :=
  match blobValues with
  | None | Some [] => ∅
  | Some blobValues =>
      Object_fromEntries
        ((λ '(k, t, v),
            (TextDecoder_decode k, loadsTyped (TextDecoder_decode t) v))
           <$> filter (λ '(_, t, _), TextDecoder_decode t ≠ "empty")
                      blobValues)
  end.

Definition _loadCheckpoint (checkpoint : StoredCheckpoint)
    (channelValues : option (list stored_blob))
    (pendingSends : option (list stored_send)) : Checkpoint :=
  {| id := sc_id checkpoint;
     channel_values := _loadBlobs channelValues;
     pending_sends :=
       (λ '(c, b), loadsTyped (bytes_toString c) b)
         <$> default [] pendingSends;
     other_fields := sc_other_fields checkpoint |}.

Definition _loadMetadata (metadata : gmap string any) : any :=
  let '(type, dumpedValue) := dumpsTyped (Obj metadata) in
  loadsTyped type dumpedValue.

Definition _loadWrites (writes : option (list stored_write))
  : list (string * string * any) :=
  match writes with
  | Some writes =>
      (λ '(tid, channel, t, v),
         (TextDecoder_decode tid, TextDecoder_decode channel,
          loadsTyped (TextDecoder_decode t) v)) <$> writes
  | None => []
  end.

Definition _dumpBlobs (threadId checkpointNs : option string)
    (values : gmap string any) (versions : option (gmap string V))
  : list blob_row :=
  match versions with
  | None => []
  | Some versions =>
      (λ '(k, ver),
         let '(type, value) :=
           if js_in k values
           then let '(t, b) := dumpsTyped (js_get values k) in (t, Some b)
           else ("empty", None) in
         (threadId, checkpointNs, k, version_toString ver, type,
          match value with Some b => Some b | None => None end))
        <$> Object_entries versions
  end.

Definition _dumpCheckpoint (checkpoint : Checkpoint) : string * list byte :=
  dumpsTyped (Obj (<["pending_sends" := Arr []]> (Checkpoint_object checkpoint))).

Definition _dumpMetadata (metadata : gmap string any) : string :=
  let '(_, serializedMetadata) := dumpsTyped (Obj metadata) in
  strip_nul (TextDecoder_decode serializedMetadata).

Definition _dumpWrites (threadId checkpointNs checkpointId : option string)
    (taskId : string) (writes : list PendingWrite) : list write_row :=
  imap (λ idx '(channel, value),
          let '(type, serializedValue) := dumpsTyped value in
          (threadId, checkpointNs, checkpointId, taskId,
           match js_get (Num <$> WRITES_IDX_MAP) channel with
           | Undefined => Num (Z.of_nat idx)
           | found => found
           end,
           channel, type, serializedValue)) writes.

End RowCodec.

(** ** Query builder *)

Section QueryBuilder.
Context `{platform : Platform}.

(** [wheres.push(lhs + (paramValues.length + 1)); paramValues.push(v)]. *)
Definition push_predicate (lhs : string) (v : any)
    (st : list string * list any) : list string * list any :=
  let '(wheres, paramValues) := st in
  (wheres ++ [lhs +:+ pretty (length paramValues + 1)%nat],
   paramValues ++ [v]).

Definition _searchWhere (config : option RunnableConfig)
    (filter : option (gmap string any)) (before : option RunnableConfig)
  : string * list any :=
  let st : list string * list any := ([], []) in
  let st :=
    match config ?. configurable with
    | Some c =>
        let st := push_predicate "thread_id = $" (js_of_opt (thread_id c)) st in
        let st :=
          match checkpoint_ns c with
          | Some checkpointNs =>
              push_predicate "checkpoint_ns = $" (Str checkpointNs) st
          | None => st
          end in
        match checkpoint_id c with
        | Some checkpointId =>
            push_predicate "checkpoint_id = $" (Str checkpointId) st
        | None => st
        end
    | None => st
    end in
  let st :=
    match filter with
    | Some f =>
        if (0 <? size f)%nat
        then push_predicate "metadata @> $" (Str (JSON_stringify (Obj f))) st
        else st
    | None => st
    end in
  let st :=
    match before ?. configurable ?. checkpoint_id with
    | Some beforeId => push_predicate "checkpoint_id < $" (Str beforeId) st
    | None => st
    end in
  let '(wheres, paramValues) := st in
  (if (0 <? length wheres)%nat
   then "WHERE " +:+ String.concat " AND " wheres
   else EmptyString,
   paramValues).

End QueryBuilder.

(** ** The pg driver

    A thrown value is an [Error] with its message.  A pool is any state
    transformer answering the four kinds of call the saver makes; every
    call is also recorded, with its outcome, in the list of events the
    computation emits. *)

Record Error := { message : string }.

Inductive event : Type :=
| Connect (ok : bool)
| ClientQuery (text : option string) (values : list any) (ok : bool)
| PoolQuery (text : string) (values : list any) (ok : bool)
| Release.

Class PgPool (db : Type) := {
  (** [pool.connect()] *)
  pool_connect : db → (Error + unit) * db;
  (** [client.query(text, values)] where the result is not read; the text
      is absent when the caller passes [undefined] *)
  client_command : option string → list any → db → (Error + unit) * db;
  (** [client.query(text)] read through [rows[i].v] *)
  client_select_v : string → db → (Error + list Z) * db;
  (** [pool.query(text, values)] read as [CheckpointRow]s *)
  pool_select_rows : string → list any → db → (Error + list CheckpointRow) * db;
}.

Definition is_ok {A} (r : Error + A) : bool :=
  match r with inr _ => true | inl _ => false end.

(** Computations over a pool: state, exceptions and the emitted events. *)
Definition M (db A : Type) : Type := db → (Error + A) * db * list event.

Section Monad.
Context {db : Type}.

Definition M_ret {A} (x : A) : M db A := λ d, (inr x, d, []).

Definition throw {A} (e : Error) : M db A := λ d, (inl e, d, []).

Definition M_bind {A B} (f : A → M db B) (m : M db A) : M db B :=
  λ d,
    let '(r, d1, t1) := m d in
    match r with
    | inl e => (inl e, d1, t1)
    | inr x => let '(r2, d2, t2) := f x d1 in (r2, d2, t1 ++ t2)
    end.

(** [try { body } catch (error) { handler(error) }] *)
Definition try_catch {A} (body : M db A) (handler : Error → M db A) : M db A :=
  λ d,
    let '(r, d1, t1) := body d in
    match r with
    | inl e => let '(r2, d2, t2) := handler e d1 in (r2, d2, t1 ++ t2)
    | inr x => (inr x, d1, t1)
    end.

(** [try { body } finally { finalizer }]: the finalizer always runs, and
    an exception of its own replaces the outcome of the body. *)
Definition try_finally {A} (body : M db A) (finalizer : M db unit) : M db A :=
  λ d,
    let '(r, d1, t1) := body d in
    let '(rf, d2, t2) := finalizer d1 in
    match rf with
    | inl e => (inl e, d2, t1 ++ t2)
    | inr _ => (r, d2, t1 ++ t2)
    end.

(** [for (const x of xs) { await body(x) }] *)
Fixpoint for_of {A} (xs : list A) (body : A → M db unit) : M db unit :=
  match xs with
  | [] => M_ret ()
  | x :: xs' => M_bind (λ _, for_of xs' body) (body x)
  end.

End Monad.

#[global] Instance M_mret {db} : MRet (M db) := @M_ret db.
#[global] Instance M_mbind {db} : MBind (M db) := @M_bind db.

Section Driver.
Context {db : Type} `{pool : PgPool db}.

Definition connect : M db unit :=
  λ d, let '(r, d') := pool_connect d in (r, d', [Connect (is_ok r)]).

Definition release : M db unit := λ d, (inr (), d, [Release]).

Definition client_query (text : option string) (values : list any) : M db unit :=
  λ d,
    let '(r, d') := client_command text values d in
    (r, d', [ClientQuery text values (is_ok r)]).

Definition client_query_v (text : string) : M db (list Z) :=
  λ d,
    let '(r, d') := client_select_v text d in
    (r, d', [ClientQuery (Some text) [] (is_ok r)]).

Definition pool_query (text : string) (values : list any)
  : M db (list CheckpointRow) :=
  λ d,
    let '(r, d') := pool_select_rows text values d in
    (r, d', [PoolQuery text values (is_ok r)]).

End Driver.

(** ** Checkpoint store *)

Definition dquote : string := String (Ascii.ascii_of_nat 34) EmptyString.

Definition SELECT_VERSION_SQL : string :=
  "SELECT v FROM checkpoint_migrations ORDER BY v DESC LIMIT 1".

Definition INSERT_VERSION_SQL : string :=
  "INSERT INTO checkpoint_migrations (v) VALUES ($1)".

Definition LEDGER_MISSING : string :=
  "relation " +:+ dquote +:+ "checkpoint_migrations" +:+ dquote
  +:+ " does not exist".

Definition MISSING_CONFIGURABLE : string :=
  "Missing " +:+ dquote +:+ "configurable" +:+ dquote +:+ " field in "
  +:+ dquote +:+ "config" +:+ dquote +:+ " param".

Definition WHERE_EXACT : string :=
  "WHERE thread_id = $1 AND checkpoint_ns = $2 AND checkpoint_id = $3".

Definition WHERE_LATEST : string :=
  "WHERE thread_id = $1 AND checkpoint_ns = $2 ORDER BY checkpoint_id DESC LIMIT 1".

Definition blob_values (r : blob_row) : list any :=
  let '(threadId, checkpointNs, k, ver, type, value) := r in
  [js_of_opt threadId; js_of_opt checkpointNs; Str k; Str ver; Str type;
   match value with Some b => Bytes b | None => Undefined end].

Definition write_values (r : write_row) : any :=
  let '(threadId, checkpointNs, checkpointId, taskId, idx, channel, type, value) := r in
  Arr [js_of_opt threadId; js_of_opt checkpointNs; js_of_opt checkpointId;
       Str taskId; idx; Str channel; Str type; Bytes value].

Section PostgresSaver.
Context `{serde : SerializerProtocol} `{platform : Platform} `{sql : SqlModule}.
Context `{realm : Realm}.
Context {V : Type} `{VersionToken V}.
Context (WRITES_IDX_MAP : gmap string Z) (MIGRATIONS : list string).
Context {db : Type} `{pool : PgPool db}.

(** The inner [try]/[catch] of [setup], returning the value [version]
    has when the loop starts. *)
Definition read_version : M db Z :=
  try_catch
    (result ← client_query_v SELECT_VERSION_SQL;
     mret (match result with
           | v :: _ => v
           | [] => -1
           end))
    (λ error,
       if includes LEDGER_MISSING (message error)
       then mret (-1)
       else throw error).

(** The body of the migration loop for one index [v]. *)
Definition migrate_step (v : Z) : M db unit :=
  client_query (js_index MIGRATIONS v) [];;
  client_query (Some INSERT_VERSION_SQL) [Num v].

(** [for (let v = version + 1; v < MIGRATIONS.length; v++)]: the loop
    visits the [MIGRATIONS.length - (version + 1)] consecutive indices
    from [version + 1], none when that count is not positive. *)
Definition pending_migrations (version : Z) : list Z :=
  seqZ (version + 1) (Z.of_nat (length MIGRATIONS) - (version + 1)).

Definition setup : M db unit :=
  connect;;
  try_finally
    (try_catch
       (client_query (Some "BEGIN") [];;
        version ← read_version;
        for_of (pending_migrations version) migrate_step;;
        client_query (Some "COMMIT") [])
       (λ error, client_query (Some "ROLLBACK") [];; throw error))
    release.

Definition getTuple (config : RunnableConfig) : M db (option CheckpointTuple) :=
  let c := default {| thread_id := None; checkpoint_ns := None;
                      checkpoint_id := None |} (configurable config) in
  let thread_id := thread_id c in
  let checkpoint_ns := default EmptyString (checkpoint_ns c) in
  let checkpoint_id := checkpoint_id c in
  let '(where_, args) :=
    if truthy checkpoint_id
    then (WHERE_EXACT,
          [js_of_opt thread_id; Str checkpoint_ns; js_of_opt checkpoint_id])
    else (WHERE_LATEST, [js_of_opt thread_id; Str checkpoint_ns]) in
  result ← pool_query (SELECT_SQL +:+ where_) args;
  match result with
  | [] => mret None
  | row :: _ =>
      let checkpoint :=
        _loadCheckpoint (row_checkpoint row) (row_channel_values row)
                        (row_pending_sends row) in
      let finalConfig :=
        {| configurable :=
             Some {| thread_id := thread_id;
                     checkpoint_ns := Some checkpoint_ns;
                     checkpoint_id := Some (row_checkpoint_id row) |} |} in
      let metadata := _loadMetadata (row_metadata row) in
      let parentConfig :=
        if truthy (row_parent_checkpoint_id row)
        then Some {| configurable :=
                       Some {| thread_id := thread_id;
                               checkpoint_ns := Some checkpoint_ns;
                               checkpoint_id := row_parent_checkpoint_id row |} |}
        else None in
      let pendingWrites := _loadWrites (row_pending_writes row) in
      mret (Some {| tuple_config := finalConfig;
                    tuple_checkpoint := checkpoint;
                    tuple_metadata := metadata;
                    tuple_parentConfig := parentConfig;
                    tuple_pendingWrites := pendingWrites |})
  end.

Definition put (config : RunnableConfig) (checkpoint : Checkpoint)
    (metadata : gmap string any) (newVersions : option (gmap string V))
  : M db RunnableConfig :=
  match configurable config with
  | None => throw {| message := MISSING_CONFIGURABLE |}
  | Some c =>
      let thread_id := thread_id c in
      let checkpoint_ns := default EmptyString (checkpoint_ns c) in
      let checkpoint_id := checkpoint_id c in
      let nextConfig :=
        {| configurable :=
             Some {| thread_id := thread_id;
                     checkpoint_ns := Some checkpoint_ns;
                     checkpoint_id := Some (id checkpoint) |} |} in
      connect;;
      let '(_, serializedCheckpoint) := _dumpCheckpoint checkpoint in
      try_finally
        (try_catch
           (client_query (Some "BEGIN") [];;
            let serializedBlobs :=
              _dumpBlobs thread_id (Some checkpoint_ns)
                         (channel_values checkpoint) newVersions in
            for_of serializedBlobs
              (λ serializedBlob,
                 client_query (Some UPSERT_CHECKPOINT_BLOBS_SQL)
                              (blob_values serializedBlob));;
            client_query (Some UPSERT_CHECKPOINTS_SQL)
              [js_of_opt thread_id; Str checkpoint_ns; Str (id checkpoint);
               js_of_opt checkpoint_id; Bytes serializedCheckpoint;
               Str (_dumpMetadata metadata)];;
            client_query (Some "COMMIT") [])
           (λ e, client_query (Some "ROLLBACK") [];; throw e))
        release;;
      mret nextConfig
  end.

(** The statement [putWrites] binds to its local [query]. *)
Definition putWrites_query (writes : list PendingWrite) : string :=
  if forallb (λ w, js_in w.1 WRITES_IDX_MAP) writes
  then UPSERT_CHECKPOINT_WRITES_SQL
  else INSERT_CHECKPOINT_WRITES_SQL.

Definition putWrites (config : RunnableConfig) (writes : list PendingWrite)
    (taskId : string) : M db unit :=
  let query := putWrites_query writes in
  connect;;
  try_finally
    (try_catch
       (client_query (Some "BEGIN") [];;
        client_query (Some query)
          (write_values
             <$> _dumpWrites WRITES_IDX_MAP
                   (configurable config ?. thread_id)
                   (configurable config ?. checkpoint_ns)
                   (configurable config ?. checkpoint_id)
                   taskId writes);;
        client_query (Some "COMMIT") [])
       (λ error, client_query (Some "ROLLBACK") [];; throw error))
    release.

End PostgresSaver.


(** ** Reference stores

    Models of the underlying transactional store, against which the
    saver's observable behaviour is stated. *)

(** A pool that answers the [n]-th call with the failure [faults n], if
    any, and otherwise succeeds; selects answer with fixed rows. *)
Definition scripted_call {A} (faults : nat → option Error) (x : A) (n : nat)
  : (Error + A) * nat :=
  (match faults n with Some e => inl e | None => inr x end, S n).

Definition scripted_pool (faults : nat → option Error) (ledger : list Z)
    (rows : list CheckpointRow) : PgPool nat :=
  {| pool_connect := scripted_call faults ();
     client_command := λ _ _, scripted_call faults ();
     client_select_v := λ _, scripted_call faults ledger;
     pool_select_rows := λ _ _, scripted_call faults rows |}.

(** A store with snapshot transactions over arbitrary contents [data]:
    [BEGIN] opens a working copy, ordinary statements act on the working
    copy, [COMMIT] installs it and [ROLLBACK] discards it.  The effect and
    the failures of ordinary statements ([statement]), the answer of the
    ledger select ([ledger]) and the failures of [connect] and of the three
    transaction statements ([control_fault]) are arbitrary. *)
Record txdb (data : Type) := {
  committed : data;
  working : option data;
}.
Arguments committed {data} _.
Arguments working {data} _.

Section TxStore.
Context {data : Type}.
Context (statement : option string → list any → data → (Error + unit) * data).
Context (ledger : data → Error + list Z).
Context (control_fault : string → data → option Error).

Definition tx_control (name : string) (s s' : txdb data)
  : (Error + unit) * txdb data :=
  match control_fault name (committed s) with
  | Some e => (inl e, s)
  | None => (inr (), s')
  end.

Definition tx_command (text : option string) (values : list any)
    (s : txdb data) : (Error + unit) * txdb data :=
  if bool_decide (text = Some "BEGIN") then
    tx_control "BEGIN" s
      {| committed := committed s;
         working := Some (default (committed s) (working s)) |}
  else if bool_decide (text = Some "COMMIT") then
    tx_control "COMMIT" s
      {| committed := default (committed s) (working s); working := None |}
  else if bool_decide (text = Some "ROLLBACK") then
    tx_control "ROLLBACK" s {| committed := committed s; working := None |}
  else
    match working s with
    | Some w =>
        let '(r, w') := statement text values w in
        (r, {| committed := committed s; working := Some w' |})
    | None =>
        let '(r, d') := statement text values (committed s) in
        (r, {| committed := if is_ok r then d' else committed s;
               working := None |})
    end.

(** The effect of a list of ordinary statements on given contents, up to
    the first failure. *)
Fixpoint apply_script (script : list (option string * list any)) (w : data)
  : (Error + unit) * data :=
  match script with
  | [] => (inr (), w)
  | (text, values) :: rest =>
      let '(r, w') := statement text values w in
      match r with
      | inl e => (inl e, w')
      | inr _ => apply_script rest w'
      end
  end.

Definition tx_pool : PgPool (txdb data) :=
  {| pool_connect := λ s, tx_control "connect" s s;
     client_command := tx_command;
     client_select_v := λ _ s, (ledger (default (committed s) (working s)), s);
     pool_select_rows := λ _ _ s, (inr [], s) |}.

End TxStore.

(** The checkpoint table read by [SELECT_SQL] under the two predicates
    [getTuple] builds.  A text column equals an argument only when the
    argument is a string with the same contents ([undefined] is sent as
    NULL, which equals nothing); [ORDER BY checkpoint_id DESC LIMIT 1]
    keeps the first row of the rows sorted by descending identifier. *)
Definition column_eq (column : option string) (argument : any) : bool :=
  match column, argument with
  | Some c, Str a => String.eqb c a
  | _, _ => false
  end.

Definition matches_thread_ns (thread ns : any) (r : CheckpointRow) : bool :=
  column_eq (Some (row_thread_id r)) thread
  && column_eq (row_checkpoint_ns r) ns.

Definition id_desc (r1 r2 : CheckpointRow) : Prop :=
  String.leb (row_checkpoint_id r2) (row_checkpoint_id r1) = true.

#[global] Instance id_desc_dec r1 r2 : Decision (id_desc r1 r2).
Proof. unfold id_desc. apply _. Defined.

Section TableStore.
Context `{sql : SqlModule}.

Definition select_checkpoints (text : string) (values : list any)
    (table : list CheckpointRow) : Error + list CheckpointRow :=
  if String.eqb text (SELECT_SQL +:+ WHERE_EXACT) then
    match values with
    | [thread; ns; cid] =>
        inr (filter (λ r, matches_thread_ns thread ns r
                          && column_eq (Some (row_checkpoint_id r)) cid = true)
                    table)
    | _ => inl {| message := "bind message supplies the wrong number of parameters" |}
    end
  else if String.eqb text (SELECT_SQL +:+ WHERE_LATEST) then
    match values with
    | [thread; ns] =>
        inr (take 1 (merge_sort id_desc
                       (filter (λ r, matches_thread_ns thread ns r = true) table)))
    | _ => inl {| message := "bind message supplies the wrong number of parameters" |}
    end
  else inl {| message := "statement not modelled" |}.

Definition table_pool : PgPool (list CheckpointRow) :=
  {| pool_connect := λ t, (inr (), t);
     client_command := λ _ _ t, (inr (), t);
     client_select_v := λ _ t, (inr [], t);
     pool_select_rows := λ text values t, (select_checkpoints text values t, t) |}.

End TableStore.

(** Concrete capabilities on which the statements are exercised: a
    serializer that stores a string as its bytes, byte-wise text decoding,
    string version tokens, named statements. *)
Definition text_serde : SerializerProtocol :=
  {| dumpsTyped v :=
       match v with
       | Str s => ("text", String.list_byte_of_string s)
       | _ => ("null", [])
       end;
     loadsTyped t b :=
       if String.eqb t "text" then Str (String.string_of_list_byte b) else Null |}.

Definition bytewise_platform : Platform :=
  {| TextDecoder_decode := String.string_of_list_byte;
     JSON_stringify := λ _, "{}";
     bytes_toString := String.string_of_list_byte |}.

Definition named_sql : SqlModule :=
  {| SELECT_SQL := "SELECT_SQL ";
     UPSERT_CHECKPOINT_BLOBS_SQL := "UPSERT_CHECKPOINT_BLOBS_SQL";
     UPSERT_CHECKPOINT_WRITES_SQL := "UPSERT_CHECKPOINT_WRITES_SQL";
     UPSERT_CHECKPOINTS_SQL := "UPSERT_CHECKPOINTS_SQL";
     INSERT_CHECKPOINT_WRITES_SQL := "INSERT_CHECKPOINT_WRITES_SQL" |}.

Definition string_version : VersionToken string := λ s, s.

(** The realm of a standard engine: [Object.prototype] with its methods
    and the [__proto__] accessor, which on an ordinary object reads as
    [Object.prototype] itself; entries are listed in the order of the map. *)
Definition Object_prototype_methods : gmap string any :=
  list_to_map
    [("constructor", Fun "Object");
     ("hasOwnProperty", Fun "hasOwnProperty");
     ("isPrototypeOf", Fun "isPrototypeOf");
     ("propertyIsEnumerable", Fun "propertyIsEnumerable");
     ("toLocaleString", Fun "toLocaleString");
     ("toString", Fun "toString");
     ("valueOf", Fun "valueOf");
     ("__defineGetter__", Fun "__defineGetter__");
     ("__defineSetter__", Fun "__defineSetter__");
     ("__lookupGetter__", Fun "__lookupGetter__");
     ("__lookupSetter__", Fun "__lookupSetter__")].

Definition standard_realm : Realm :=
  {| Object_prototype :=
       <["__proto__" := Obj Object_prototype_methods]> Object_prototype_methods;
     Object_entries := λ A, map_to_list;
     Object_entries_own := λ A o, reflexivity (map_to_list o) |}.

(** A schema store that keeps the texts of the statements applied so far;
    a statement without text fails, and the ledger is missing until a
    first statement has been applied. *)
Definition journal_statement (text : option string) (values : list any)
    (w : list string) : (Error + unit) * list string :=
  match text with
  | Some t => (inr (), w ++ [t])
  | None => (inl {| message := "A query must have either text or a name" |}, w)
  end.

Definition journal_ledger (w : list string) : Error + list Z :=
  match w with
  | [] => inl {| message := "error: " +:+ LEDGER_MISSING |}
  | _ => inr []
  end.

Definition no_fault (name : string) (w : list string) : option Error := None.

Definition example_migrations : list string :=
  ["CREATE TABLE IF NOT EXISTS checkpoint_migrations (v INTEGER PRIMARY KEY)";
   "CREATE TABLE IF NOT EXISTS checkpoints (thread_id TEXT NOT NULL)"].

(** A checkpoint row of the root namespace with the given thread and
    identifier and nothing else. *)
Definition bare_row (thread cid : string) : CheckpointRow :=
  {| row_checkpoint := {| sc_id := cid; sc_other_fields := ∅ |};
     row_metadata := ∅;
     row_parent_checkpoint_id := None;
     row_thread_id := thread;
     row_checkpoint_id := cid;
     row_checkpoint_ns := Some EmptyString;
     row_channel_values := None;
     row_pending_writes := None;
     row_pending_sends := None |}.

(** ** Reading rows and events *)

(** A statement as passed to [client.query]: text and arguments. *)
Definition sql_statement : Type := option string * list any.

Definition issued (ok : bool) (s : sql_statement) : event :=
  ClientQuery s.1 s.2 ok.

(** The statements the migration loop issues when it starts after
    [version]: for each pending index the migration and the insertion of
    the index into the ledger. *)
Definition migration_script (MIGRATIONS : list string) (version : Z)
  : list sql_statement :=
  flat_map (λ v, [(js_index MIGRATIONS v, []);
                  (Some INSERT_VERSION_SQL, [Num v])])
           (pending_migrations MIGRATIONS version).

(** The version the specification assigns to an answer of the ledger
    select: the first row's, [-1] for no row, [-1] for the failure that
    says the ledger relation does not exist, and the failure itself
    otherwise. *)
Definition version_of_ledger_read (r : Error + list Z) : Error + Z :=
  match r with
  | inr (v :: _) => inr v
  | inr [] => inr (-1)
  | inl e => if includes LEDGER_MISSING (message e) then inr (-1) else inl e
  end.

Definition transaction_control : list string := ["BEGIN"; "COMMIT"; "ROLLBACK"].

(** The statements sent through [client.query], in order, whatever their
    outcome. *)
Definition client_statements (ev : list event) : list sql_statement :=
  omap (λ e, match e with
             | ClientQuery text values _ => Some (text, values)
             | _ => None
             end) ev.

(** The statement lists a transaction around one data statement can
    issue: nothing when no client is obtained, and otherwise BEGIN, the
    statement and COMMIT, cut short by the first failure and then followed
    by ROLLBACK. *)
Definition single_statement_runs (s : sql_statement) : list (list sql_statement) :=
  [ [];
    [(Some "BEGIN", []); (Some "ROLLBACK", [])];
    [(Some "BEGIN", []); s; (Some "ROLLBACK", [])];
    [(Some "BEGIN", []); s; (Some "COMMIT", []); (Some "ROLLBACK", [])];
    [(Some "BEGIN", []); s; (Some "COMMIT", [])] ].

Definition blob_channel (r : blob_row) : string :=
  let '(_, _, k, _, _, _) := r in k.

Definition blob_payload (r : blob_row) : string * option (list byte) :=
  let '(_, _, _, _, type, value) := r in (type, value).

Definition write_idx (r : write_row) : any :=
  let '(_, _, _, _, idx, _, _, _) := r in idx.

Definition write_channel (r : write_row) : string :=
  let '(_, _, _, _, _, channel, _, _) := r in channel.

(** What the blob table hands back for a row written by [_dumpBlobs]: the
    channel and type columns as bytes that decode to the stored text, and
    the stored bytes themselves; nothing is said of the bytes read back for
    a blob stored as NULL. *)
Definition stored_as `{platform : Platform} (written : blob_row)
    (read : stored_blob) : Prop :=
  let '(_, _, k, _, type, value) := written in
  let '(kb, tb, vb) := read in
  TextDecoder_decode kb = k ∧ TextDecoder_decode tb = type
  ∧ ∀ b, value = Some b → vb = b.

(** The entry a versioned channel contributes to the mapping loaded back:
    its value, unless it has none or is stored under the type tag
    ["empty"]. *)
Definition kept_entry `{serde : SerializerProtocol} {V : Type}
    (values : gmap string any) (kv : string * V) : option (string * any) :=
  match values !! kv.1 with
  | Some v =>
      if decide ((dumpsTyped v).1 ≠ "empty") then Some (kv.1, v) else None
  | None => None
  end.

(** The predicates of the search clause as the specification lists them:
    each with its left-hand side and its argument, in the fixed order. *)
Definition search_predicates `{platform : Platform}
    (config : option RunnableConfig) (filter : option (gmap string any))
    (before : option RunnableConfig) : list (string * any) :=
  match config ?. configurable with
  | Some c =>
      [("thread_id = $", js_of_opt (thread_id c))]
      ++ match checkpoint_ns c with
         | Some ns => [("checkpoint_ns = $", Str ns)]
         | None => []
         end
      ++ match checkpoint_id c with
         | Some cid => [("checkpoint_id = $", Str cid)]
         | None => []
         end
  | None => []
  end
  ++ match filter with
     | Some f =>
         if bool_decide (f = ∅) then []
         else [("metadata @> $", Str (JSON_stringify (Obj f)))]
     | None => []
     end
  ++ match before ?. configurable ?. checkpoint_id with
     | Some cid => [("checkpoint_id < $", Str cid)]
     | None => []
     end.

(** The clause for a list of predicates: the [i]-th one (counting from 1)
    refers to parameter [$i], and the arguments are listed in the same
    order. *)
Definition numbered_clause (predicates : list (string * any))
  : string * list any :=
  (match predicates with
   | [] => EmptyString
   | _ => "WHERE "
          +:+ String.concat " AND "
                (imap (λ i p, p.1 +:+ pretty (S i)) predicates)
   end,
   predicates.*2).

(** ** Listing checkpoints *)

(** The [limit] of [list] is a JavaScript [number]; only its conversion
    to a string inside a template literal is used (decimal digits for an
    integer below 1e21, exponent notation from there on, a fraction, [NaN]
    or [Infinity] otherwise), so the type and that conversion are
    parameters. *)
Class NumberToken (N : Type) := number_toString : N → string.

(** [CheckpointListOptions] of the checkpoint package, with the three
    options [list] reads. *)
Record CheckpointListOptions (N : Type) := {
  opt_filter : option (gmap string any);
  opt_before : option RunnableConfig;
  opt_limit : option N;
}.
Arguments opt_filter {N} _.
Arguments opt_before {N} _.
Arguments opt_limit {N} _.

Section Listing.
Context `{serde : SerializerProtocol} `{platform : Platform} `{sql : SqlModule}.
Context {N : Type} `{NumberToken N}.
Context {db : Type} `{pool : PgPool db}.

(** The object [list] yields for one row of the result. *)
Definition list_tuple (value : CheckpointRow) : CheckpointTuple :=
  {| tuple_config :=
       {| configurable :=
            Some {| thread_id := Some (row_thread_id value);
                    checkpoint_ns := row_checkpoint_ns value;
                    checkpoint_id := Some (row_checkpoint_id value) |} |};
     tuple_checkpoint :=
       _loadCheckpoint (row_checkpoint value) (row_channel_values value)
                       (row_pending_sends value);
     tuple_metadata := _loadMetadata (row_metadata value);
     tuple_parentConfig :=
       if truthy (row_parent_checkpoint_id value)
       then Some {| configurable :=
                      Some {| thread_id := Some (row_thread_id value);
                              checkpoint_ns := row_checkpoint_ns value;
                              checkpoint_id := row_parent_checkpoint_id value |} |}
       else None;
     tuple_pendingWrites := _loadWrites (row_pending_writes value) |}.

(** The generator [list]: one query, then one tuple per row in the order
    of the rows.  The result is the sequence of everything the generator
    yields when it is driven to its end. *)
Definition list_checkpoints (config : RunnableConfig)
    (options : option (CheckpointListOptions N))
  : M db (list CheckpointTuple) :=
  let filter := options ?. opt_filter in
  let before := options ?. opt_before in
  let limit := options ?. opt_limit in
  let '(where_, args) := _searchWhere (Some config) filter before in
  let query := (SELECT_SQL +:+ where_) +:+ " ORDER BY checkpoint_id DESC" in
  let query :=
    match limit with
    | Some n => query +:+ (" LIMIT " +:+ number_toString n)
    | None => query
    end in
  result ← pool_query query args;
  mret (list_tuple <$> result).

End Listing.

(** ** Reading the written rows back *)

Definition blob_key (r : blob_row)
  : option string * option string * string * string :=
  let '(threadId, checkpointNs, k, ver, _, _) := r in
  (threadId, checkpointNs, k, ver).

(** What the writes table hands back for a row written by [_dumpWrites]:
    the task, channel and type columns as bytes that decode to the stored
    text, and the stored bytes themselves. *)
Definition write_stored_as `{platform : Platform} (written : write_row)
    (read : stored_write) : Prop :=
  let '(_, _, _, taskId, _, channel, type, value) := written in
  let '(tb, cb, typeb, vb) := read in
  TextDecoder_decode tb = taskId ∧ TextDecoder_decode cb = channel
  ∧ TextDecoder_decode typeb = type ∧ vb = value.

(** The statements of a successful [put], in order. *)
Definition put_script `{serde : SerializerProtocol} `{platform : Platform}
    `{sql : SqlModule} `{realm : Realm} {V : Type} `{VersionToken V}
    (c : Configurable) (checkpoint : Checkpoint) (metadata : gmap string any)
    (newVersions : option (gmap string V)) : list sql_statement :=
  ((λ b, (Some UPSERT_CHECKPOINT_BLOBS_SQL, blob_values b))
     <$> _dumpBlobs (thread_id c) (Some (default EmptyString (checkpoint_ns c)))
           (channel_values checkpoint) newVersions)
  ++ [(Some UPSERT_CHECKPOINTS_SQL,
       [js_of_opt (thread_id c); Str (default EmptyString (checkpoint_ns c));
        Str (id checkpoint); js_of_opt (checkpoint_id c);
        Bytes (_dumpCheckpoint checkpoint).2; Str (_dumpMetadata metadata)])].

Definition is_client_query (e : event) : Prop :=
  match e with
  | ClientQuery _ _ _ => True
  | _ => False
  end.

(** The events of a call that either gets no client, or gets one, only
    queries on it and releases it last. *)
Definition client_used_and_released (ev : list event) : Prop :=
  ev = [Connect false]
  ∨ ∃ queries,
      ev = Connect true :: queries ++ [Release]
      ∧ Forall is_client_query queries.

(** The migration statements for the entries of [MIGRATIONS] from position
    [first] on: each entry's text, then the insertion of its position into
    the ledger. *)
Definition migrations_from (MIGRATIONS : list string) (first : nat)
  : list sql_statement :=
  flat_map (λ p : Z * string,
              [(Some p.2, []); (Some INSERT_VERSION_SQL, [Num p.1])])
           (drop first (imap (λ i m, (Z.of_nat i, m)) MIGRATIONS)).

(** A store whose transactions behave as PostgreSQL's do after a failure:
    once a statement has failed inside a transaction block, every further
    statement is refused until the block ends, and a COMMIT of such a block
    discards its work.  Outside a block every statement commits on its
    own.  The effect and the failures of ordinary statements ([statement])
    and the answer of the ledger select ([ledger]) are arbitrary. *)
Inductive tx_phase (data : Type) :=
| Idle
| Active (w : data)
| Failed.
Arguments Idle {data}.
Arguments Active {data} w.
Arguments Failed {data}.

Record pgdb (data : Type) := {
  pg_committed : data;
  pg_phase : tx_phase data;
}.
Arguments pg_committed {data} _.
Arguments pg_phase {data} _.

Definition TRANSACTION_ABORTED : Error :=
  {| message :=
       "current transaction is aborted, commands ignored until end of transaction block" |}.

Section AbortingStore.
Context {data : Type}.
Context (statement : option string → list any → data → (Error + unit) * data).
Context (ledger : data → Error + list Z).

Definition pg_command (text : option string) (values : list any)
    (s : pgdb data) : (Error + unit) * pgdb data :=
  if bool_decide (text = Some "ROLLBACK") then
    (inr (), {| pg_committed := pg_committed s; pg_phase := Idle |})
  else if bool_decide (text = Some "COMMIT") then
    (inr (),
     {| pg_committed := match pg_phase s with
                        | Active w => w
                        | _ => pg_committed s
                        end;
        pg_phase := Idle |})
  else
    match pg_phase s with
    | Failed => (inl TRANSACTION_ABORTED, s)
    | Active w =>
        if bool_decide (text = Some "BEGIN") then (inr (), s)
        else
          let '(r, w') := statement text values w in
          (r, {| pg_committed := pg_committed s;
                 pg_phase := if is_ok r then Active w' else Failed |})
    | Idle =>
        if bool_decide (text = Some "BEGIN") then
          (inr (), {| pg_committed := pg_committed s;
                      pg_phase := Active (pg_committed s) |})
        else
          let '(r, d') := statement text values (pg_committed s) in
          (r, {| pg_committed := if is_ok r then d' else pg_committed s;
                 pg_phase := Idle |})
    end.

Definition pg_select_v (s : pgdb data) : (Error + list Z) * pgdb data :=
  match pg_phase s with
  | Failed => (inl TRANSACTION_ABORTED, s)
  | Active w =>
      (ledger w,
       {| pg_committed := pg_committed s;
          pg_phase := if is_ok (ledger w) then Active w else Failed |})
  | Idle => (ledger (pg_committed s), s)
  end.

Definition pg_pool : PgPool (pgdb data) :=
  {| pool_connect := λ s, (inr (), s);
     client_command := pg_command;
     client_select_v := λ _, pg_select_v;
     pool_select_rows := λ _ _ s, (inr [], s) |}.

End AbortingStore.

(** Concrete inputs on which the statements are exercised: a pool on which
    every call succeeds, the identity of checkpoint [c0] of thread [t1],
    a checkpoint with one channel, a store whose ledger is at version 1. *)
Definition obliging_pool : PgPool nat := scripted_pool (λ _, None) [] [].

Definition example_configurable : Configurable :=
  {| thread_id := Some "t1"; checkpoint_ns := None; checkpoint_id := Some "c0" |}.

Definition example_config : RunnableConfig :=
  {| configurable := Some example_configurable |}.

Definition example_checkpoint (cid : string) : Checkpoint :=
  {| id := cid; channel_values := {[ "x" := Str "1" ]}; pending_sends := [];
     other_fields := ∅ |}.

Definition migrated_ledger (w : list string) : Error + list Z := inr [1].

Definition failing_at (n : nat) (e : Error) (k : nat) : option Error :=
  if Nat.eqb k n then Some e else None.

(** * Properties *)

Ltac solve_elem_of_list :=
  first [ apply list_elem_of_here
        | apply list_elem_of_further; solve_elem_of_list ].

(** ** Row codec *)

Section RowCodecProperties.
Context `{serde : SerializerProtocol} `{platform : Platform} `{realm : Realm}.
Context {V : Type} `{VersionToken V}.

Lemma Checkpoint_object_zeroed (c : Checkpoint) :
  <["pending_sends" := Arr []]> (Checkpoint_object c)
  = Checkpoint_object
      {| id := id c; channel_values := channel_values c;
         pending_sends := []; other_fields := other_fields c |}.
Proof. unfold Checkpoint_object; simpl. by rewrite insert_insert_eq. Qed.

(** C8: [_dumpCheckpoint] serializes the checkpoint whose [pending_sends]
    is the empty list and whose other fields are those of the given
    checkpoint: in the serialized object [pending_sends] is [[]] and every
    other property is read as in the original object. *)
Theorem dumpCheckpoint_zeroes_pending_sends (c : Checkpoint) :
  let zeroed := {| id := id c; channel_values := channel_values c;
                   pending_sends := []; other_fields := other_fields c |} in
  _dumpCheckpoint c = dumpsTyped (Obj (Checkpoint_object zeroed))
  ∧ Checkpoint_object zeroed !! "pending_sends" = Some (Arr [])
  ∧ ∀ k, k ≠ "pending_sends" →
         Checkpoint_object zeroed !! k = Checkpoint_object c !! k.
Proof.
  intros zeroed. split_and!.
  - unfold _dumpCheckpoint. by rewrite Checkpoint_object_zeroed.
  - unfold Checkpoint_object. apply lookup_insert_eq.
  - intros k Hk. unfold Checkpoint_object; simpl.
    rewrite lookup_insert_ne by done.
    symmetry. by rewrite lookup_insert_ne by done.
Qed.

Lemma strip_nul_filter (s : string) :
  String.list_ascii_of_string (strip_nul s)
  = filter (λ c, c ≠ Ascii.zero) (String.list_ascii_of_string s).
Proof.
  induction s as [|c s IH]; [done|]. simpl.
  destruct (Ascii.eqb_spec c Ascii.zero) as [->|Hc].
  - rewrite filter_cons_False; [done|]. by intros [].
  - rewrite filter_cons_True by done. simpl. by rewrite IH.
Qed.

(** C9: [_dumpMetadata] returns the text decoded from the serializer's
    bytes with every null character removed and every other character
    kept in order; the returned string contains no null character. *)
Theorem dumpMetadata_strips_nul (metadata : gmap string any) :
  String.list_ascii_of_string (_dumpMetadata metadata)
  = filter (λ c, c ≠ Ascii.zero)
      (String.list_ascii_of_string
         (TextDecoder_decode (dumpsTyped (Obj metadata)).2))
  ∧ Ascii.zero ∉ String.list_ascii_of_string (_dumpMetadata metadata).
Proof.
  assert (String.list_ascii_of_string (_dumpMetadata metadata)
          = filter (λ c, c ≠ Ascii.zero)
              (String.list_ascii_of_string
                 (TextDecoder_decode (dumpsTyped (Obj metadata)).2))) as Heq.
  { unfold _dumpMetadata. destruct (dumpsTyped (Obj metadata)) as [t b].
    apply strip_nul_filter. }
  split; [done|]. rewrite Heq. intros [Hz _]%list_elem_of_filter. by apply Hz.
Qed.

(** The ordering slot of every row of a batch, in any realm: the table's
    own index for the channel when it has one; else what the table
    inherits under the channel's name, when that is not [undefined]; else
    the position in the batch. *)
Lemma dumpWrites_index (WRITES_IDX_MAP : gmap string Z)
    (tid ns cid : option string) (taskId : string) (writes : list PendingWrite) :
  length (_dumpWrites WRITES_IDX_MAP tid ns cid taskId writes) = length writes
  ∧ (∀ (idx : nat) channel value,
       writes !! idx = Some (channel, value) →
       ∃ row, _dumpWrites WRITES_IDX_MAP tid ns cid taskId writes !! idx = Some row
              ∧ write_channel row = channel
              ∧ write_idx row
                = match WRITES_IDX_MAP !! channel with
                  | Some reserved => Num reserved
                  | None =>
                      match Object_prototype !! channel with
                      | None | Some Undefined => Num (Z.of_nat idx)
                      | Some inherited => inherited
                      end
                  end).
Proof.
  split.
  - unfold _dumpWrites. apply length_imap.
  - intros idx channel value Hidx. unfold _dumpWrites.
    eexists. split.
    { rewrite list_lookup_imap. unfold PendingWrite in *. by rewrite Hidx. }
    simpl. destruct (dumpsTyped value) as [type bytes]. split; [done|].
    unfold write_idx, js_get. rewrite lookup_fmap.
    destruct (WRITES_IDX_MAP !! channel) as [reserved|]; [done|]. simpl.
    by destruct (Object_prototype !! channel) as [[]|].
Qed.

(** C7: in the realm of a standard engine the batch
    [[("__start__", v0); ("constructor", v1)]], on a table that reserves
    [__start__] at 0 and has no entry for [constructor], gets the slot 0
    for the reserved channel and, for [constructor], not its batch
    position 1 but the function the table inherits under that name. *)
Theorem dumpWrites_index_of_inherited_name (tid ns cid : option string)
    (taskId : string) (v0 v1 : any) :
  ({[ "__start__" := 0 ]} : gmap string Z) !! "constructor" = None
  ∧ write_idx
      <$> _dumpWrites (realm := standard_realm) {[ "__start__" := 0 ]}
            tid ns cid taskId [("__start__", v0); ("constructor", v1)]
    = [Num 0; Fun "Object"].
Proof.
  split; [reflexivity|]. unfold _dumpWrites. simpl.
  by destruct (dumpsTyped v0), (dumpsTyped v1).
Qed.

Lemma Object_fromEntries_snoc (l : list (string * any)) k v :
  Object_fromEntries (l ++ [(k, v)]) = <[k := v]> (Object_fromEntries l).
Proof. unfold Object_fromEntries. by rewrite foldl_app. Qed.

Lemma Object_fromEntries_lookup (l : list (string * any)) k v :
  NoDup l.*1 → Object_fromEntries l !! k = Some v ↔ (k, v) ∈ l.
Proof.
  induction l as [|[k' v'] l IH] using rev_ind.
  - intros _. unfold Object_fromEntries. simpl. rewrite lookup_empty.
    split; [done|]. by intros ?%elem_of_nil.
  - rewrite fmap_app. simpl. intros [Hl [Hdisj _]]%NoDup_app.
    rewrite Object_fromEntries_snoc, elem_of_app, list_elem_of_singleton.
    destruct (decide (k' = k)) as [->|Hne].
    + rewrite lookup_insert_eq. split.
      * intros [= ->]. by right.
      * intros [Hin| [= ->]]; [|done]. exfalso.
        apply (Hdisj k); [|apply list_elem_of_singleton; done].
        apply list_elem_of_fmap. by exists (k, v).
    + rewrite lookup_insert_ne by done. rewrite IH by done.
      split; [by left|]. intros [?|[= ? ?]]; [done|congruence].
Qed.

Lemma loadBlobs_entries (stored : list stored_blob) :
  _loadBlobs (Some stored)
  = Object_fromEntries
      ((λ '(k, t, v),
          (TextDecoder_decode k, loadsTyped (TextDecoder_decode t) v))
         <$> filter (λ '(_, t, _), TextDecoder_decode t ≠ "empty") stored).
Proof. by destruct stored. Qed.

Section RoundTrip.
Context (tid ns : option string) (values : gmap string any).
Context (Hserde : ∀ k v, values !! k = Some v →
                         loadsTyped (dumpsTyped v).1 (dumpsTyped v).2 = v).

Lemma loaded_entries (l : list (string * V)) (stored : list stored_blob) :
  Forall2 stored_as
    ((λ '(k, ver),
        let '(type, value) :=
          match values !! k with
          | Some x => let '(t, b) := dumpsTyped x in (t, Some b)
          | None => ("empty", None)
          end in
        (tid, ns, k, version_toString ver, type,
         match value with Some b => Some b | None => None end) : blob_row)
       <$> l) stored →
  (λ '(k, t, v), (TextDecoder_decode k, loadsTyped (TextDecoder_decode t) v))
    <$> filter (λ '(_, t, _), TextDecoder_decode t ≠ "empty") stored
  = omap (kept_entry values) l.
Proof.
  revert stored. induction l as [|[k ver] l IH]; intros stored Hst.
  - apply Forall2_nil_inv_l in Hst as ->. done.
  - rewrite fmap_cons in Hst.
    apply Forall2_cons_inv_l in Hst as ([[kb tb] vb] & stored' & Hrow & Hst & ->).
    specialize (IH _ Hst).
    change (omap (kept_entry values) ((k, ver) :: l))
      with (match kept_entry values (k, ver) with
            | Some y => y :: omap (kept_entry values) l
            | None => omap (kept_entry values) l
            end).
    unfold kept_entry at 1. cbn [fst snd].
    destruct (values !! k) as [v|] eqn:Hv.
    + pose proof (Hserde _ _ Hv) as Hrt.
      destruct (dumpsTyped v) as [t b]. cbn in Hrow, Hrt |- *.
      destruct Hrow as (Hk & Ht & Hb). specialize (Hb _ eq_refl).
      subst k t vb.
      destruct (decide (TextDecoder_decode tb ≠ "empty")) as [Hne|He].
      * rewrite fmap_cons. f_equal; [cbn; by rewrite Hrt|exact IH].
      * exact IH.
    + cbn in Hrow. destruct Hrow as (Hk & Ht & _).
      rewrite filter_cons_False; [done|]. intros Hne. by apply Hne.
Qed.

Lemma kept_keys_sublist (l : list (string * V)) :
  (omap (kept_entry values) l).*1 `sublist_of` l.*1.
Proof.
  induction l as [|[k ver] l IH]; [done|].
  change (omap (kept_entry values) ((k, ver) :: l))
    with (match kept_entry values (k, ver) with
          | Some y => y :: omap (kept_entry values) l
          | None => omap (kept_entry values) l
          end).
  unfold kept_entry at 1. cbn [fst snd]. rewrite fmap_cons. cbn [fst].
  destruct (values !! k) as [v|]; [|by apply sublist_cons].
  destruct (decide _); [by apply sublist_skip|by apply sublist_cons].
Qed.

End RoundTrip.

(** As long as no versioned channel that [values] lacks is a name
    [values] inherits, [_dumpBlobs] reads own entries only. *)
Lemma dumpBlobs_own (tid ns : option string) (values : gmap string any)
    (versions : gmap string V) :
  (∀ k, is_Some (versions !! k) → values !! k = None →
        Object_prototype !! k = None) →
  _dumpBlobs tid ns values (Some versions)
  = (λ '(k, ver),
       let '(type, value) :=
         match values !! k with
         | Some x => let '(t, b) := dumpsTyped x in (t, Some b)
         | None => ("empty", None)
         end in
       (tid, ns, k, version_toString ver, type,
        match value with Some b => Some b | None => None end) : blob_row)
      <$> Object_entries versions.
Proof.
  intros Hown. unfold _dumpBlobs. apply list_fmap_ext.
  intros i [k ver] Hin. apply list_elem_of_lookup_2 in Hin.
  rewrite Object_entries_own in Hin. apply elem_of_map_to_list in Hin.
  unfold js_in, js_get. destruct (values !! k) as [v|] eqn:Hv.
  - by rewrite bool_decide_eq_true_2 by by eexists.
  - rewrite (Hown k) by (by eexists || done).
    rewrite !bool_decide_eq_false_2 by by intros [? ?]. done.
Qed.

(** The round trip of the blob codec where it holds: when no versioned
    channel that [values] lacks is a name [values] inherits, [_dumpBlobs]
    emits one row per channel of [versions], carrying the sentinel
    [("empty", null)] when the channel has no entry in [values] and the
    serializer's type and bytes otherwise; for a serializer that loads
    back what it dumped, [_loadBlobs] on those rows as read back from the
    store yields the entries of [values] whose channel is in [versions],
    without those stored under the type tag ["empty"]. *)
Lemma blob_round_trip (tid ns : option string) (values : gmap string any)
    (versions : gmap string V) (stored : list stored_blob) :
  (∀ k, is_Some (versions !! k) → values !! k = None →
        Object_prototype !! k = None) →
  (∀ k v, values !! k = Some v →
          loadsTyped (dumpsTyped v).1 (dumpsTyped v).2 = v) →
  Forall2 stored_as (_dumpBlobs tid ns values (Some versions)) stored →
  blob_channel <$> _dumpBlobs tid ns values (Some versions)
  = (Object_entries versions).*1
  ∧ NoDup (blob_channel <$> _dumpBlobs tid ns values (Some versions))
  ∧ (∀ row, row ∈ _dumpBlobs tid ns values (Some versions) →
            blob_payload row
            = match values !! blob_channel row with
              | Some v => ((dumpsTyped v).1, Some (dumpsTyped v).2)
              | None => ("empty", None)
              end)
  ∧ _loadBlobs (Some stored)
    = filter (λ kv, is_Some (versions !! kv.1) ∧ (dumpsTyped kv.2).1 ≠ "empty")
             values.
Proof.
  intros Hown Hserde Hstored.
  assert (NoDup (Object_entries versions).*1) as Hnodup.
  { rewrite Object_entries_own. apply NoDup_fst_map_to_list. }
  rewrite (dumpBlobs_own tid ns values versions Hown) in *.
  assert (∀ l : list (string * V),
            blob_channel
              <$> ((λ '(k, ver),
                      let '(type, value) :=
                        match values !! k with
                        | Some x => let '(t, b) := dumpsTyped x in (t, Some b)
                        | None => ("empty", None)
                        end in
                      (tid, ns, k, version_toString ver, type,
                       match value with Some b => Some b | None => None end)
                      : blob_row) <$> l)
            = l.*1) as Hchannels.
  { intros l. rewrite <- list_fmap_compose.
    apply list_fmap_ext. intros _ [k ver] _. simpl.
    destruct (values !! k) as [v|]; [destruct (dumpsTyped v)|]; done. }
  split_and!.
  - apply Hchannels.
  - by rewrite Hchannels.
  - intros row. intros ([k ver] & -> & _)%list_elem_of_fmap. simpl.
    destruct (values !! k) as [v|] eqn:Hv.
    + destruct (dumpsTyped v) as [t b] eqn:Hd. simpl. by rewrite Hv, Hd.
    + simpl. by rewrite Hv.
  - rewrite loadBlobs_entries.
    rewrite (loaded_entries tid ns values Hserde (Object_entries versions))
      by done.
    apply map_eq. intros k. apply option_eq. intros v.
    rewrite Object_fromEntries_lookup.
    2:{ eapply sublist_NoDup; [|apply kept_keys_sublist]. exact Hnodup. }
    rewrite map_lookup_filter_Some, list_elem_of_omap. simpl. split.
    + intros ([k' ver] & Hin & Hkept).
      rewrite Object_entries_own in Hin. apply elem_of_map_to_list in Hin.
      unfold kept_entry in Hkept. simpl in Hkept.
      destruct (values !! k') as [v'|] eqn:Hv; [|done].
      destruct (decide _) as [Hne|]; [|done]. injection Hkept as -> ->.
      split; [done|]. split; [by eexists|done].
    + intros (Hv & [ver Hver] & Hne). exists (k, ver). split.
      * rewrite Object_entries_own. by apply elem_of_map_to_list.
      * unfold kept_entry. simpl. rewrite Hv. by rewrite decide_True by done.
Qed.

(** C2: in the realm of a standard engine, for the versioned channel
    [constructor] and a [values] object without any entry, [_dumpBlobs]
    does not emit the sentinel [("empty", null)]: it emits the type and
    the bytes the serializer gives for the function [values] inherits
    under that name. *)
Theorem dumpBlobs_serializes_inherited_name (tid ns : option string)
    (version : V) :
  blob_payload
    <$> _dumpBlobs (realm := standard_realm) tid ns ∅
          (Some {[ "constructor" := version ]})
  = [((dumpsTyped (Fun "Object")).1, Some (dumpsTyped (Fun "Object")).2)].
Proof.
  assert (Object_prototype (Realm := standard_realm) !! "constructor"
          = Some (Fun "Object")) as Hinherited by reflexivity.
  unfold _dumpBlobs. cbn [Object_entries standard_realm].
  rewrite map_to_list_singleton. simpl.
  unfold js_in, js_get. rewrite lookup_empty, Hinherited. simpl.
  by destruct (dumpsTyped (Fun "Object")).
Qed.

End RowCodecProperties.

(** ** Query builder *)

Section QueryBuilderProperties.
Context `{platform : Platform}.

Lemma filter_nonempty_size (f : gmap string any) :
  (0 <? size f)%nat = negb (bool_decide (f = ∅)).
Proof.
  case_bool_decide as Hf; simpl.
  - subst f. by rewrite map_size_empty.
  - apply Nat.ltb_lt. apply Nat.neq_0_lt_0. by rewrite map_size_empty_iff.
Qed.

(** C6: [_searchWhere] emits the predicates in the fixed order thread-id
    equality, namespace equality, checkpoint-id equality, metadata
    containment (one JSON argument), checkpoint-id-less-than, each only
    when its filter is present; the [i]-th predicate refers to parameter
    [$i] and the [i]-th argument is its argument; without any filter the
    clause and the argument list are empty. *)
Theorem searchWhere_clause (config : option RunnableConfig)
    (filter : option (gmap string any)) (before : option RunnableConfig) :
  _searchWhere config filter before
  = numbered_clause (search_predicates config filter before)
  ∧ (∀ (i : nat) p,
       search_predicates config filter before !! i = Some p →
       (_searchWhere config filter before).2 !! i = Some p.2)
  ∧ (config ?. configurable = None →
     filter = None ∨ filter = Some ∅ →
     before ?. configurable ?. checkpoint_id = None →
     _searchWhere config filter before = (EmptyString, [])).
Proof.
  assert (_searchWhere config filter before
          = numbered_clause (search_predicates config filter before)) as Heq.
  { unfold _searchWhere, search_predicates.
    destruct (config ?. configurable) as [[t [n|] [i|]]|];
      (destruct filter as [f|];
       [rewrite filter_nonempty_size; destruct (bool_decide (f = ∅))|]);
      destruct (before ?. configurable ?. checkpoint_id) as [b|];
      reflexivity. }
  split_and!.
  - done.
  - intros i p Hp. rewrite Heq. unfold numbered_clause. simpl.
    by rewrite list_lookup_fmap, Hp.
  - intros Hc Hf Hb. rewrite Heq. unfold search_predicates.
    rewrite Hc, Hb. by destruct Hf as [->| ->].
Qed.

End QueryBuilderProperties.

(** ** Transactions *)

Ltac unfold_M :=
  unfold mbind, M_mbind, M_bind, mret, M_mret, M_ret, try_catch, try_finally,
    throw, connect, release, client_query, client_query_v, pool_query.

Section TransactionFrame.
Context {db : Type} `{pool : PgPool db}.

(** The [try]/[catch]/[finally] frame shared by [setup], [put] and
    [putWrites]: a block that fails is followed by ROLLBACK and the
    release of the client, and the failure is rethrown unless ROLLBACK
    fails itself; a block that succeeds is followed by the release. *)
Lemma transaction_frame {A} (block : M db A) (d : db) :
  try_finally
    (try_catch block (λ error, client_query (Some "ROLLBACK") [];; throw error))
    release d
  = let '(r, d1, t1) := block d in
    match r with
    | inr x => (inr x, d1, t1 ++ [Release])
    | inl e =>
        let '(rr, d2) := client_command (Some "ROLLBACK") [] d1 in
        (inl (match rr with inl e' => e' | inr _ => e end), d2,
         t1 ++ [ClientQuery (Some "ROLLBACK") [] (is_ok rr); Release])
    end.
Proof.
  unfold_M. destruct (block d) as [[[e|x] d1] t1]; [|done].
  destruct (client_command (Some "ROLLBACK") [] d1) as [[e'|[]] d2]; simpl;
    by rewrite <- app_assoc.
Qed.

Lemma read_version_rule (d : db) :
  read_version d
  = let '(r, d') := client_select_v SELECT_VERSION_SQL d in
    (version_of_ledger_read r, d',
     [ClientQuery (Some SELECT_VERSION_SQL) [] (is_ok r)]).
Proof.
  unfold read_version. unfold_M.
  destruct (client_select_v SELECT_VERSION_SQL d) as [[e|[|v rows]] d']; simpl;
    [|done|done].
  destruct (includes LEDGER_MISSING (message e)); by simpl.
Qed.

Lemma bind_run {A B} (m : M db A) (f : A → M db B) (d : db) :
  (m ≫= f) d
  = let '(r, d1, t1) := m d in
    match r with
    | inl e => (inl e, d1, t1)
    | inr x => let '(r2, d2, t2) := f x d1 in (r2, d2, t1 ++ t2)
    end.
Proof. done. Qed.

Lemma bind_connect {B} (k : M db B) (d : db) :
  (connect;; k) d
  = let '(r, d0) := pool_connect d in
    match r with
    | inl e => (inl e, d0, [Connect false])
    | inr _ => let '(r2, d2, t2) := k d0 in (r2, d2, Connect true :: t2)
    end.
Proof.
  rewrite bind_run. unfold connect.
  by destruct (pool_connect d) as [[e|[]] d0].
Qed.

Lemma bind_query {B} (text : option string) (values : list any)
    (k : M db B) (d : db) :
  (client_query text values;; k) d
  = let '(r, d1) := client_command text values d in
    match r with
    | inl e => (inl e, d1, [ClientQuery text values false])
    | inr _ =>
        let '(r2, d2, t2) := k d1 in (r2, d2, ClientQuery text values true :: t2)
    end.
Proof.
  rewrite bind_run. unfold client_query.
  by destruct (client_command text values d) as [[e|[]] d1].
Qed.

Lemma query_run (text : option string) (values : list any) (d : db) :
  client_query text values d
  = let '(r, d1) := client_command text values d in
    (r, d1, [ClientQuery text values (is_ok r)]).
Proof. done. Qed.

End TransactionFrame.

(** ** Schema migrator *)

Section SetupProperties.
Context (MIGRATIONS : list string).
Context {db : Type} `{pool : PgPool db}.

Local Abbreviation step_statements :=
  (λ v : Z, [(js_index MIGRATIONS v, @nil any);
             (Some INSERT_VERSION_SQL, [Num v])]).

(** The indices the loop visits, read as the loop is written: test
    [v < MIGRATIONS.length], run the body, step to [v + 1]. *)
Lemma pending_migrations_unfold (version : Z) :
  pending_migrations MIGRATIONS version
  = if version + 1 <? Z.of_nat (length MIGRATIONS)
    then (version + 1) :: pending_migrations MIGRATIONS (version + 1)
    else [].
Proof.
  unfold pending_migrations.
  destruct (Z.ltb_spec (version + 1) (Z.of_nat (length MIGRATIONS))).
  - rewrite seqZ_cons by lia. f_equal. f_equal; lia.
  - apply seqZ_nil. lia.
Qed.

Lemma migrate_step_run (v : Z) (d : db) :
  migrate_step MIGRATIONS v d
  = let '(r1, d1) := client_command (js_index MIGRATIONS v) [] d in
    match r1 with
    | inl e => (inl e, d1, [ClientQuery (js_index MIGRATIONS v) [] false])
    | inr _ =>
        let '(r2, d2) := client_command (Some INSERT_VERSION_SQL) [Num v] d1 in
        (r2, d2, [ClientQuery (js_index MIGRATIONS v) [] true;
                  ClientQuery (Some INSERT_VERSION_SQL) [Num v] (is_ok r2)])
    end.
Proof.
  unfold migrate_step. rewrite bind_query.
  destruct (client_command (js_index MIGRATIONS v) [] d) as [[e|[]] d1]; [done|].
  rewrite query_run. by destruct (client_command _ _ d1) as [r2 d2].
Qed.

Lemma migration_loop_events (vs : list Z) (d : db) :
  let '(r, d', ev) := for_of vs (migrate_step MIGRATIONS) d in
  (is_ok r = true → ev = issued true <$> flat_map step_statements vs)
  ∧ Forall (λ e, ∃ ok s, e = issued ok s ∧ s ∈ flat_map step_statements vs) ev.
Proof.
  revert d. induction vs as [|v vs IH]; intros d.
  - simpl. unfold_M. split; [done|]. apply Forall_nil_2.
  - cbn [for_of flat_map]. change (M_bind ?f ?m) with (m ≫= f).
    rewrite bind_run, migrate_step_run.
    destruct (client_command (js_index MIGRATIONS v) [] d) as [[e|[]] d1].
    { split; [done|]. apply Forall_singleton.
      exists false, (js_index MIGRATIONS v, []). split; [done|]. simpl; solve_elem_of_list. }
    destruct (client_command (Some INSERT_VERSION_SQL) [Num v] d1) as [[e|[]] d2].
    { split; [done|]. apply Forall_cons. split.
      - exists true, (js_index MIGRATIONS v, []). split; [done|]. simpl; solve_elem_of_list.
      - apply Forall_singleton.
        exists false, (Some INSERT_VERSION_SQL, [Num v]). split; [done|].
        simpl; solve_elem_of_list. }
    specialize (IH d2).
    destruct (for_of vs (migrate_step MIGRATIONS) d2) as [[r d3] ev].
    destruct IH as [IHok IHall]. simpl. split.
    + intros Hok. by rewrite (IHok Hok).
    + apply Forall_cons. split.
      { exists true, (js_index MIGRATIONS v, []). split; [done|]. simpl; solve_elem_of_list. }
      apply Forall_cons. split.
      { exists true, (Some INSERT_VERSION_SQL, [Num v]). split; [done|].
        simpl; solve_elem_of_list. }
      eapply Forall_impl; [exact IHall|].
      intros e (ok & s & -> & Hs). exists ok, s. split; [done|].
      by do 2 apply list_elem_of_further.
Qed.

Lemma js_index_elem_of (v : Z) (m : string) :
  js_index MIGRATIONS v = Some m → m ∈ MIGRATIONS.
Proof.
  unfold js_index. destruct (v <? 0); [done|]. apply list_elem_of_lookup_2.
Qed.

Lemma script_not_control (vs : list Z) (s : sql_statement) (c : string) :
  Forall (λ m, m ∉ transaction_control) MIGRATIONS →
  s ∈ flat_map step_statements vs → c ∈ transaction_control → s.1 ≠ Some c.
Proof.
  intros HM Hs Hc. apply list_elem_of_In, in_flat_map in Hs as (v & _ & Hs).
  apply list_elem_of_In in Hs.
  apply elem_of_cons in Hs as [->|Hs]; simpl.
  - intros Hm%js_index_elem_of. rewrite Forall_forall in HM. by apply (HM c).
  - apply list_elem_of_singleton in Hs as ->. simpl. intros [= <-].
    unfold transaction_control in Hc.
    repeat (apply elem_of_cons in Hc as [Hc|Hc]; [discriminate Hc|]).
    by apply elem_of_nil in Hc.
Qed.

Lemma loop_events_not_commit (vs : list Z) (evl : list event) :
  Forall (λ m, m ∉ transaction_control) MIGRATIONS →
  Forall (λ e, ∃ ok s, e = issued ok s ∧ s ∈ flat_map step_statements vs) evl →
  Forall (λ e, e ≠ ClientQuery (Some "COMMIT") [] true) evl.
Proof.
  intros HM Hall. eapply Forall_impl; [exact Hall|].
  intros e (ok & s & -> & Hs) [= Hs1 _ _].
  apply (script_not_control vs s "COMMIT"); [done..| |done].
  unfold transaction_control. apply list_elem_of_further, list_elem_of_here.
Qed.

Lemma not_elem_of_Forall_ne {A} (x : A) (l : list A) :
  Forall (λ y, y ≠ x) l → x ∉ l.
Proof. rewrite Forall_forall. intros Hl Hx. by apply (Hl x). Qed.

Ltac solve_Forall_ne :=
  repeat first
    [ assumption
    | apply Forall_nil_2
    | apply Forall_cons; split; [discriminate|]
    | apply Forall_app; split ].

(** What a run of [setup] looks like from outside, for any pool. *)
Lemma setup_events (d : db) :
  Forall (λ m, m ∉ transaction_control) MIGRATIONS →
  let '(r, d', ev) := setup MIGRATIONS d in
  match r with
  | inr _ =>
      ∃ d0 d1 rsel d2 version,
        pool_connect d = (inr (), d0)
        ∧ client_command (Some "BEGIN") [] d0 = (inr (), d1)
        ∧ client_select_v SELECT_VERSION_SQL d1 = (rsel, d2)
        ∧ version_of_ledger_read rsel = inr version
        ∧ ev = Connect true
               :: ClientQuery (Some "BEGIN") [] true
               :: ClientQuery (Some SELECT_VERSION_SQL) [] (is_ok rsel)
               :: (issued true <$> migration_script MIGRATIONS version)
               ++ [ClientQuery (Some "COMMIT") [] true; Release]
  | inl _ =>
      ev = [Connect false]
      ∨ ∃ pre ok,
          ev = Connect true
               :: pre ++ [ClientQuery (Some "ROLLBACK") [] ok; Release]
          ∧ ClientQuery (Some "COMMIT") [] true ∉ pre
  end.
Proof.
  intros HM. unfold setup. rewrite bind_connect.
  destruct (pool_connect d) as [[e|[]] d0] eqn:Hconnect; [by left|].
  rewrite transaction_frame, bind_query.
  destruct (client_command (Some "BEGIN") [] d0) as [[e|[]] d1] eqn:Hbegin.
  { destruct (client_command (Some "ROLLBACK") [] d1) as [rr d2].
    right. eexists _, _. split; [done|].
    apply not_elem_of_Forall_ne. solve_Forall_ne. }
  rewrite bind_run, read_version_rule.
  destruct (client_select_v SELECT_VERSION_SQL d1) as [rsel d2] eqn:Hsel.
  destruct (version_of_ledger_read rsel) as [e|version] eqn:Hversion.
  { destruct (client_command (Some "ROLLBACK") [] d2) as [rr d3].
    right. eexists _, _. split; [done|].
    apply not_elem_of_Forall_ne. solve_Forall_ne. }
  rewrite bind_run.
  pose proof (migration_loop_events (pending_migrations MIGRATIONS version) d2)
    as Hloop.
  destruct (for_of _ _ d2) as [[[e|[]] d3] evl]; destruct Hloop as [Hok Hall];
    apply (loop_events_not_commit _ _ HM) in Hall.
  { destruct (client_command (Some "ROLLBACK") [] d3) as [rr d4].
    right. eexists _, _. split; [done|].
    apply not_elem_of_Forall_ne. solve_Forall_ne. }
  rewrite query_run.
  destruct (client_command (Some "COMMIT") [] d3) as [[e|[]] d4].
  { destruct (client_command (Some "ROLLBACK") [] d4) as [rr d5].
    right. eexists _, _. split; [done|].
    apply not_elem_of_Forall_ne. solve_Forall_ne. }
  eexists d0, d1, rsel, d2, version. split_and!; try done.
  simpl. rewrite (Hok eq_refl). unfold migration_script.
  by rewrite <- app_assoc.
Qed.

End SetupProperties.

Section SetupOnTxStore.
Context (MIGRATIONS : list string).
Context {data : Type}.
Context (statement : option string → list any → data → (Error + unit) * data).
Context (ledger : data → Error + list Z).
Context (control_fault : string → data → option Error).

Local Abbreviation txp := (tx_pool statement ledger control_fault).
Local Abbreviation step_statements :=
  (λ v : Z, [(js_index MIGRATIONS v, @nil any);
             (Some INSERT_VERSION_SQL, [Num v])]).

Lemma tx_command_ordinary (text : option string) (values : list any)
    (c w : data) :
  (∀ name, name ∈ transaction_control → text ≠ Some name) →
  tx_command statement control_fault text values
    {| committed := c; working := Some w |}
  = let '(r, w') := statement text values w in
    (r, {| committed := c; working := Some w' |}).
Proof.
  intros Htext. unfold tx_command, transaction_control in *.
  rewrite !bool_decide_eq_false_2; [done|apply Htext..]; solve_elem_of_list.
Qed.

Lemma tx_rollback_committed (s : txdb data) :
  committed (tx_command statement control_fault (Some "ROLLBACK") [] s).2
  = committed s.
Proof.
  unfold tx_command. simpl. unfold tx_control.
  by destruct (control_fault "ROLLBACK" (committed s)).
Qed.

Ltac rollback_branch :=
  match goal with
  | |- context [tx_command ?st ?cf (Some "ROLLBACK") [] ?d] =>
      let Hrb := fresh "Hrb" in
      pose proof (tx_rollback_committed d) as Hrb;
      destruct (tx_command st cf (Some "ROLLBACK") [] d);
      simpl in Hrb |- *; congruence
  end.

Lemma tx_migration_loop (vs : list Z) (c w : data) :
  Forall (λ m, m ∉ transaction_control) MIGRATIONS →
  ∃ ev,
    for_of vs (migrate_step (pool := txp) MIGRATIONS)
      {| committed := c; working := Some w |}
    = ((apply_script statement (flat_map step_statements vs) w).1,
       {| committed := c;
          working := Some (apply_script statement (flat_map step_statements vs) w).2 |},
       ev).
Proof.
  intros HM. revert w. induction vs as [|v vs IH]; intros w.
  - by eexists.
  - cbn [for_of flat_map]. change (M_bind ?f ?m) with (m ≫= f).
    rewrite bind_run, migrate_step_run.
    change (client_command (PgPool := txp))
      with (tx_command statement control_fault).
    rewrite tx_command_ordinary.
    2:{ intros name Hname.
        apply (script_not_control MIGRATIONS [v] (js_index MIGRATIONS v, [])
                 name HM); [|done].
        simpl. apply list_elem_of_here. }
    simpl. destruct (statement (js_index MIGRATIONS v) [] w) as [[e|[]] w1];
      [by eexists|].
    rewrite tx_command_ordinary.
    2:{ intros name Hname.
        apply (script_not_control MIGRATIONS [v]
                 (Some INSERT_VERSION_SQL, [Num v]) name HM); [|done].
        simpl. apply list_elem_of_further, list_elem_of_here. }
    destruct (statement (Some INSERT_VERSION_SQL) [Num v] w1) as [[e|[]] w2];
      [by eexists|].
    destruct (IH w2) as [ev ->]. by eexists.
Qed.

(** On the transactional store a failing [setup] leaves the committed
    contents as they were, and a successful one leaves them as the pending
    migrations and their ledger entries make them. *)
Lemma setup_atomic (c : data) :
  Forall (λ m, m ∉ transaction_control) MIGRATIONS →
  let '(r, s', _) :=
    setup (pool := txp) MIGRATIONS {| committed := c; working := None |} in
  match r with
  | inl _ => committed s' = c
  | inr _ =>
      ∃ version,
        version_of_ledger_read (ledger c) = inr version
        ∧ apply_script statement (migration_script MIGRATIONS version) c
          = (inr (), committed s')
        ∧ working s' = None
  end.
Proof.
  intros HM. unfold setup. rewrite bind_connect.
  cbn [pool_connect txp tx_pool]. unfold tx_control at 1. cbn [committed].
  destruct (control_fault "connect" c); [done|].
  rewrite transaction_frame, bind_query.
  change (client_command (PgPool := txp))
    with (tx_command statement control_fault).
  unfold tx_command at 1. rewrite bool_decide_eq_true_2 by done.
  unfold tx_control at 1. cbn [committed working default from_option Datatypes.id].
  destruct (control_fault "BEGIN" c); [rollback_branch|].
  rewrite bind_run, read_version_rule. cbn [client_select_v tx_pool].
  cbn [committed working default from_option Datatypes.id].
  destruct (version_of_ledger_read (ledger c)) as [e|version] eqn:Hversion;
    [rollback_branch|].
  rewrite bind_run.
  destruct (tx_migration_loop (pending_migrations MIGRATIONS version) c c HM)
    as [ev ->].
  fold (migration_script MIGRATIONS version).
  destruct (apply_script statement (migration_script MIGRATIONS version) c)
    as [[e|[]] w'] eqn:Hscript; cbn [fst snd]; [rollback_branch|].
  rewrite query_run.
  change (client_command (PgPool := txp))
    with (tx_command statement control_fault).
  unfold tx_command at 1. rewrite bool_decide_eq_false_2 by done.
  rewrite bool_decide_eq_true_2 by done.
  unfold tx_control at 1. cbn [committed working default from_option Datatypes.id].
  destruct (control_fault "COMMIT" c); [rollback_branch|].
  simpl. by exists version.
Qed.

End SetupOnTxStore.

Section SetupTheorem.
Context (MIGRATIONS : list string).
Context {db : Type} `{pool : PgPool db}.
Context {data : Type}.
Context (statement : option string → list any → data → (Error + unit) * data).
Context (ledger : data → Error + list Z).
Context (control_fault : string → data → option Error).

(** C5: [setup] takes as version the first row of the ledger select, [-1]
    when there is no row or when the select fails with a message that
    includes [relation "checkpoint_migrations" does not exist], and
    rethrows any other failure of the select.  A successful run is
    BEGIN, the select, for each index from [version + 1] to the end of
    [MIGRATIONS] the migration and the insertion of its index, COMMIT;
    a failing run that got a client issues ROLLBACK last and has no
    successful COMMIT before it.  On a store with snapshot transactions a
    failing run leaves the committed contents unchanged and a successful
    one commits exactly the pending migrations with their ledger
    entries.  (No migration is itself BEGIN, COMMIT or ROLLBACK.) *)
Theorem setup_migrates_in_one_transaction :
  Forall (λ m, m ∉ transaction_control) MIGRATIONS →
  (∀ d : db,
     read_version d
     = let '(r, d') := client_select_v SELECT_VERSION_SQL d in
       (version_of_ledger_read r, d',
        [ClientQuery (Some SELECT_VERSION_SQL) [] (is_ok r)]))
  ∧ (∀ d : db,
       let '(r, d', ev) := setup MIGRATIONS d in
       match r with
       | inr _ =>
           ∃ d0 d1 rsel d2 version,
             pool_connect d = (inr (), d0)
             ∧ client_command (Some "BEGIN") [] d0 = (inr (), d1)
             ∧ client_select_v SELECT_VERSION_SQL d1 = (rsel, d2)
             ∧ version_of_ledger_read rsel = inr version
             ∧ ev = Connect true
                    :: ClientQuery (Some "BEGIN") [] true
                    :: ClientQuery (Some SELECT_VERSION_SQL) [] (is_ok rsel)
                    :: (issued true <$> migration_script MIGRATIONS version)
                    ++ [ClientQuery (Some "COMMIT") [] true; Release]
       | inl _ =>
           ev = [Connect false]
           ∨ ∃ pre ok,
               ev = Connect true
                    :: pre ++ [ClientQuery (Some "ROLLBACK") [] ok; Release]
               ∧ ClientQuery (Some "COMMIT") [] true ∉ pre
       end)
  ∧ (∀ c : data,
       let '(r, s', _) :=
         setup (pool := tx_pool statement ledger control_fault) MIGRATIONS
           {| committed := c; working := None |} in
       match r with
       | inl _ => committed s' = c
       | inr _ =>
           ∃ version,
             version_of_ledger_read (ledger c) = inr version
             ∧ apply_script statement (migration_script MIGRATIONS version) c
               = (inr (), committed s')
             ∧ working s' = None
       end).
Proof.
  intros HM. split_and!.
  - intros d. apply read_version_rule.
  - intros d. by apply setup_events.
  - intros c. by apply setup_atomic.
Qed.

End SetupTheorem.

(** ** Checkpoint store: writes *)

Section PutProperties.
Context `{serde : SerializerProtocol} `{platform : Platform} `{sql : SqlModule}.
Context `{realm : Realm}.
Context {V : Type} `{VersionToken V}.
Context (WRITES_IDX_MAP : gmap string Z).
Context {db : Type} `{pool : PgPool db}.

Lemma putWrites_query_reserved (writes : list PendingWrite) :
  Forall (λ w, is_Some (WRITES_IDX_MAP !! w.1)) writes →
  putWrites_query WRITES_IDX_MAP writes = UPSERT_CHECKPOINT_WRITES_SQL.
Proof.
  intros Hall. unfold putWrites_query.
  match goal with
  | |- context [forallb ?f writes] => destruct (forallb f writes) eqn:Hb
  end; [done|].
  apply not_true_iff_false in Hb. exfalso. apply Hb. apply Is_true_eq_true.
  apply forallb_True. eapply Forall_impl; [exact Hall|].
  intros w Hw. unfold js_in. apply orb_True. left. by apply bool_decide_pack.
Qed.

Lemma putWrites_query_other (writes : list PendingWrite) :
  Forall (λ w, Object_prototype !! w.1 = None) writes →
  ¬ Forall (λ w, is_Some (WRITES_IDX_MAP !! w.1)) writes →
  putWrites_query WRITES_IDX_MAP writes = INSERT_CHECKPOINT_WRITES_SQL.
Proof.
  intros Hown Hnot. unfold putWrites_query.
  match goal with
  | |- context [forallb ?f writes] => destruct (forallb f writes) eqn:Hb
  end; [|done].
  exfalso. apply Hnot. apply Is_true_eq_left, forallb_True in Hb.
  rewrite Forall_forall in Hb, Hown. apply Forall_forall. intros w Hw.
  specialize (Hb w Hw). specialize (Hown w Hw). unfold js_in in Hb.
  apply orb_True in Hb as [Hb|Hb]; apply bool_decide_unpack in Hb; [done|].
  rewrite Hown in Hb. by destruct Hb.
Qed.

Lemma putWrites_statements (config : RunnableConfig)
    (writes : list PendingWrite) (taskId : string) (d : db) :
  let data_statement : sql_statement :=
    (Some (putWrites_query WRITES_IDX_MAP writes),
     write_values
       <$> _dumpWrites WRITES_IDX_MAP
             (configurable config ?. thread_id)
             (configurable config ?. checkpoint_ns)
             (configurable config ?. checkpoint_id) taskId writes) in
  let '(r, d', ev) := putWrites WRITES_IDX_MAP config writes taskId d in
  client_statements ev ∈ single_statement_runs data_statement
  ∧ (is_ok r = true
     → client_statements ev
       = [(Some "BEGIN", []); data_statement; (Some "COMMIT", [])]).
Proof.
  intros data_statement. unfold putWrites. rewrite bind_connect.
  destruct (pool_connect d) as [[e|[]] d0].
  { split; [|done]. apply list_elem_of_here. }
  rewrite transaction_frame, bind_query.
  destruct (client_command (Some "BEGIN") [] d0) as [[e|[]] d1].
  { destruct (client_command (Some "ROLLBACK") [] d1) as [rr d2].
    split; [|done]. unfold single_statement_runs. simpl. solve_elem_of_list. }
  rewrite bind_query. fold data_statement.
  destruct (client_command (Some (putWrites_query WRITES_IDX_MAP writes)) _ d1)
    as [[e|[]] d2].
  { destruct (client_command (Some "ROLLBACK") [] d2) as [rr d3].
    split; [|done]. unfold single_statement_runs. simpl. solve_elem_of_list. }
  rewrite query_run.
  destruct (client_command (Some "COMMIT") [] d2) as [[e|[]] d3].
  { destruct (client_command (Some "ROLLBACK") [] d3) as [rr d4].
    split; [|done]. unfold single_statement_runs. simpl. solve_elem_of_list. }
  split; [|done]. unfold single_statement_runs. simpl. solve_elem_of_list.
Qed.

(** The choice of statement where it follows the reserved-name table: for
    a batch none of whose channels is a name the table inherits,
    [putWrites] binds its statement to the upserting text when every write
    targets a channel of the table and to the insert-only text otherwise.
    In every case the chosen statement, with the rows of [_dumpWrites], is
    the only statement issued between BEGIN and COMMIT, and a successful
    call issues exactly BEGIN, that statement and COMMIT. *)
Lemma putWrites_statement_choice (config : RunnableConfig)
    (writes : list PendingWrite) (taskId : string) (d : db) :
  (Forall (λ w, is_Some (WRITES_IDX_MAP !! w.1)) writes →
   putWrites_query WRITES_IDX_MAP writes = UPSERT_CHECKPOINT_WRITES_SQL)
  ∧ (Forall (λ w, Object_prototype !! w.1 = None) writes →
     ¬ Forall (λ w, is_Some (WRITES_IDX_MAP !! w.1)) writes →
     putWrites_query WRITES_IDX_MAP writes = INSERT_CHECKPOINT_WRITES_SQL)
  ∧ (let data_statement : sql_statement :=
       (Some (putWrites_query WRITES_IDX_MAP writes),
        write_values
          <$> _dumpWrites WRITES_IDX_MAP
                (configurable config ?. thread_id)
                (configurable config ?. checkpoint_ns)
                (configurable config ?. checkpoint_id) taskId writes) in
     let '(r, d', ev) := putWrites WRITES_IDX_MAP config writes taskId d in
     client_statements ev ∈ single_statement_runs data_statement
     ∧ (is_ok r = true
        → client_statements ev
          = [(Some "BEGIN", []); data_statement; (Some "COMMIT", [])])).
Proof.
  split_and!.
  - apply putWrites_query_reserved.
  - apply putWrites_query_other.
  - apply putWrites_statements.
Qed.

(** C4: in the realm of a standard engine a batch of one write to the
    channel [constructor], which the reserved-name table (here the one
    reserving [__start__]) does not hold, is bound to the upserting
    statement, not to the insert-only one: the membership test finds the
    name among the properties the table inherits. *)
Theorem putWrites_upserts_inherited_name (value : any) :
  ({[ "__start__" := 0 ]} : gmap string Z) !! "constructor" = None
  ∧ putWrites_query (realm := standard_realm) {[ "__start__" := 0 ]}
      [("constructor", value)]
    = UPSERT_CHECKPOINT_WRITES_SQL.
Proof. split; reflexivity. Qed.

(** C10: for an empty batch the every-write-is-reserved test holds
    vacuously, so the statement is the upserting one, the row list is
    empty, and the only data statement a call issues is the upserting text
    with no rows. *)
Theorem putWrites_empty_batch (config : RunnableConfig) (taskId : string)
    (d : db) :
  putWrites_query WRITES_IDX_MAP [] = UPSERT_CHECKPOINT_WRITES_SQL
  ∧ (∀ tid ns cid, _dumpWrites WRITES_IDX_MAP tid ns cid taskId [] = [])
  ∧ (let '(r, d', ev) := putWrites WRITES_IDX_MAP config [] taskId d in
     client_statements ev
       ∈ single_statement_runs (Some UPSERT_CHECKPOINT_WRITES_SQL, [])
     ∧ (is_ok r = true
        → client_statements ev
          = [(Some "BEGIN", []); (Some UPSERT_CHECKPOINT_WRITES_SQL, []);
             (Some "COMMIT", [])])).
Proof.
  split_and!; [done..|].
  exact (putWrites_statements config [] taskId d).
Qed.

Lemma after_connect {A} (x : (Error + A) * db * list event) :
  ∃ r d' ev,
    (let '(r2, d2, t2) := x in (r2, d2, Connect true :: t2))
    = (r, d', Connect true :: ev).
Proof. destruct x as [[r d'] ev]. by eexists _, _, _. Qed.

(** C1 (as the code has it): [put] throws its configuration error at once,
    with no call to the pool, when the config has no [configurable]
    object; when [configurable] is present, with or without a thread id,
    [put] goes on to ask the pool for a client. *)
Theorem put_requires_configurable (config : RunnableConfig)
    (checkpoint : Checkpoint) (metadata : gmap string any)
    (newVersions : option (gmap string V)) (d : db) :
  match configurable config with
  | None =>
      put config checkpoint metadata newVersions d
      = (inl {| message := MISSING_CONFIGURABLE |}, d, [])
  | Some c =>
      ∃ r d' ev,
        put config checkpoint metadata newVersions d
        = (r, d', Connect (is_ok (pool_connect d).1) :: ev)
  end.
Proof.
  unfold put. destruct (configurable config) as [c|]; [|done].
  rewrite bind_connect. destruct (pool_connect d) as [[e|[]] d0]; simpl.
  - by eexists _, _, _.
  - apply after_connect.
Qed.

End PutProperties.

(** ** Checkpoint store: reads *)

Lemma String_compare_trans_le (s1 s2 s3 : string) :
  String.compare s1 s2 ≠ Gt → String.compare s2 s3 ≠ Gt →
  String.compare s1 s3 ≠ Gt.
Proof.
  revert s2 s3. induction s1 as [|c1 s1 IH]; intros [|c2 s2] [|c3 s3]; simpl;
    try congruence.
  unfold Ascii.compare.
  destruct (N.compare_spec (Ascii.N_of_ascii c1) (Ascii.N_of_ascii c2)) as [E1|E1|E1];
    destruct (N.compare_spec (Ascii.N_of_ascii c2) (Ascii.N_of_ascii c3)) as [E2|E2|E2];
    try congruence.
  - rewrite E1, E2, N.compare_refl. apply IH.
  - intros _ _. rewrite E1. apply N.compare_lt_iff in E2. by rewrite E2.
  - intros _ _. rewrite <- E2. apply N.compare_lt_iff in E1. by rewrite E1.
  - intros _ _.
    assert (Ascii.N_of_ascii c1 < Ascii.N_of_ascii c3)%N as E3 by lia.
    apply N.compare_lt_iff in E3. by rewrite E3.
Qed.

Lemma String_leb_trans (s1 s2 s3 : string) :
  String.leb s1 s2 = true → String.leb s2 s3 = true → String.leb s1 s3 = true.
Proof.
  unfold String.leb. intros H12 H23.
  pose proof (String_compare_trans_le s1 s2 s3) as Htrans.
  destruct (String.compare s1 s2), (String.compare s2 s3),
    (String.compare s1 s3); try done; exfalso; by apply Htrans.
Qed.

Lemma String_leb_refl (s : string) : String.leb s s = true.
Proof. by destruct (String.leb_total s s). Qed.

#[global] Instance id_desc_trans : Transitive id_desc.
Proof. intros x y z Hxy Hyz. unfold id_desc in *. by eapply String_leb_trans. Qed.

#[global] Instance id_desc_total : Total id_desc.
Proof. intros x y. unfold id_desc. apply String.leb_total. Qed.

Lemma merge_sort_id_desc_head (rows : list CheckpointRow) :
  match merge_sort id_desc rows with
  | [] => rows = []
  | row :: _ =>
      row ∈ rows
      ∧ ∀ row', row' ∈ rows →
                String.leb (row_checkpoint_id row') (row_checkpoint_id row) = true
  end.
Proof.
  pose proof (merge_sort_Permutation id_desc rows) as Hperm.
  pose proof (StronglySorted_merge_sort id_desc rows) as Hsorted.
  destruct (merge_sort id_desc rows) as [|row rest].
  - by apply Permutation_nil_l in Hperm.
  - split.
    + rewrite <- Hperm. apply list_elem_of_here.
    + intros row' Hin. rewrite <- Hperm in Hin.
      apply StronglySorted_inv in Hsorted as [_ Hall].
      apply elem_of_cons in Hin as [->|Hin]; [apply String_leb_refl|].
      rewrite Forall_forall in Hall. by apply Hall.
Qed.

Lemma column_eq_Some (column : string) (argument : option string) :
  column_eq (Some column) (js_of_opt argument) = true ↔ argument = Some column.
Proof.
  destruct argument as [a|]; simpl; [|done]. rewrite String.eqb_eq.
  split; [by intros ->|by intros [= ->]].
Qed.

Section GetTupleProperties.
Context `{serde : SerializerProtocol} `{platform : Platform} `{sql : SqlModule}.

Lemma select_exact (thread ns cid : any) (table : list CheckpointRow) :
  select_checkpoints (SELECT_SQL +:+ WHERE_EXACT) [thread; ns; cid] table
  = inr (filter (λ r, matches_thread_ns thread ns r
                      && column_eq (Some (row_checkpoint_id r)) cid = true)
                table).
Proof. unfold select_checkpoints. by rewrite String.eqb_refl. Qed.

Lemma select_latest (thread ns : any) (table : list CheckpointRow) :
  select_checkpoints (SELECT_SQL +:+ WHERE_LATEST) [thread; ns] table
  = inr (take 1 (merge_sort id_desc
                   (filter (λ r, matches_thread_ns thread ns r = true) table))).
Proof.
  unfold select_checkpoints.
  rewrite (proj2 (String.eqb_neq _ _)).
  - by rewrite String.eqb_refl.
  - intros Heq%String.app_inj. discriminate Heq.
Qed.

(** Resolution on a checkpoint table: [getTuple] never
    fails; it answers [undefined] exactly when no row of the input thread
    and namespace (the namespace defaulting to the empty string) qualifies;
    otherwise it answers from a row of that thread and namespace which,
    for a non-empty [checkpoint_id], has exactly that identifier and, for a
    missing or empty one, has the lexically greatest identifier among
    those rows.  The returned config carries the input thread id, the
    namespace and the row's identifier, and a parent config is present iff
    the row's [parent_checkpoint_id] is non-empty. *)
Lemma getTuple_resolution (config : RunnableConfig)
    (table : list CheckpointRow) :
  let c := default {| thread_id := None; checkpoint_ns := None;
                      checkpoint_id := None |} (configurable config) in
  let ns := default EmptyString (checkpoint_ns c) in
  let in_scope row :=
    matches_thread_ns (js_of_opt (thread_id c)) (Str ns) row = true in
  match (getTuple (pool := table_pool) config table).1.1 with
  | inl _ => False
  | inr None =>
      ∀ row, row ∈ table → in_scope row →
             truthy (checkpoint_id c) = true
             ∧ checkpoint_id c ≠ Some (row_checkpoint_id row)
  | inr (Some t) =>
      ∃ row,
        row ∈ table ∧ in_scope row
        ∧ (truthy (checkpoint_id c) = true →
           checkpoint_id c = Some (row_checkpoint_id row))
        ∧ (truthy (checkpoint_id c) = false →
           ∀ row', row' ∈ table → in_scope row' →
                   String.leb (row_checkpoint_id row') (row_checkpoint_id row)
                   = true)
        ∧ tuple_config t
          = {| configurable :=
                 Some {| thread_id := thread_id c;
                         checkpoint_ns := Some ns;
                         checkpoint_id := Some (row_checkpoint_id row) |} |}
        ∧ tuple_parentConfig t
          = if truthy (row_parent_checkpoint_id row)
            then Some {| configurable :=
                           Some {| thread_id := thread_id c;
                                   checkpoint_ns := Some ns;
                                   checkpoint_id := row_parent_checkpoint_id row |} |}
            else None
  end.
Proof.
  intros c ns in_scope. unfold getTuple. fold c. fold ns.
  destruct (truthy (checkpoint_id c)) eqn:Htruthy.
  - rewrite bind_run. unfold pool_query. cbn [pool_select_rows table_pool].
    rewrite select_exact.
    match goal with
    | |- context [filter ?P table] =>
        pose proof (list_elem_of_filter P table) as Hfilter;
        destruct (filter P table) as [|row rest]
    end; simpl.
    + intros row Hin Hscope. split; [done|]. intros Hcid.
      apply (elem_of_nil row), Hfilter. split; [|done].
      apply andb_true_intro. split; [done|]. by apply column_eq_Some.
    + destruct (proj1 (Hfilter row) (list_elem_of_here _ _)) as [HP Hin].
      apply andb_prop in HP as [Hscope Hcid]. apply column_eq_Some in Hcid.
      exists row. by split_and!.
  - rewrite bind_run. unfold pool_query. cbn [pool_select_rows table_pool].
    rewrite select_latest.
    match goal with
    | |- context [filter ?P table] =>
        pose proof (list_elem_of_filter P table) as Hfilter;
        pose proof (merge_sort_id_desc_head (filter P table)) as Hhead;
        destruct (merge_sort id_desc (filter P table)) as [|row rest]
    end; simpl.
    + intros row Hin Hscope. exfalso. apply (elem_of_nil row).
      rewrite <- Hhead. by apply Hfilter.
    + destruct Hhead as [Hrow Hmax]. apply Hfilter in Hrow as [Hscope Hin].
      exists row. split_and!; try done.
      intros _ row' Hin' Hscope'. apply Hmax. by apply Hfilter.
Qed.

End GetTupleProperties.


(** * Further properties of the saver *)

(** ** Row codec *)

Section RowCodecMore.
Context `{serde : SerializerProtocol} `{platform : Platform} `{realm : Realm}.
Context {V : Type} `{VersionToken V}.

Lemma strip_nul_fixed (s : string) :
  strip_nul s = s ↔ Ascii.zero ∉ String.list_ascii_of_string s.
Proof.
  induction s as [|c s IH]; simpl.
  - split; [intros _; apply not_elem_of_nil|done].
  - destruct (Ascii.eqb_spec c Ascii.zero) as [->|Hc].
    + split.
      * intros Heq. exfalso.
        assert (String.length (strip_nul s) ≤ String.length s)%nat as Hlen.
        { clear. induction s as [|c s IH]; simpl; [done|].
          destruct (Ascii.eqb c Ascii.zero); simpl; lia. }
        rewrite Heq in Hlen. simpl in Hlen. lia.
      * intros Hnot. exfalso. apply Hnot, list_elem_of_here.
    + rewrite not_elem_of_cons. split.
      * intros [= Heq]. split; [congruence|]. by apply IH.
      * intros [_ Hs]. f_equal. by apply IH.
Qed.

(** X1: The null-stripping of [_dumpMetadata] loses nothing exactly when the
    decoded text has no null character. *)
Theorem dumpMetadata_lossless_iff (metadata : gmap string any) :
  _dumpMetadata metadata = TextDecoder_decode (dumpsTyped (Obj metadata)).2
  ↔ Ascii.zero
      ∉ String.list_ascii_of_string
          (TextDecoder_decode (dumpsTyped (Obj metadata)).2).
Proof.
  unfold _dumpMetadata. destruct (dumpsTyped (Obj metadata)) as [t b]. simpl.
  apply strip_nul_fixed.
Qed.

Lemma dumpWrites_lookup (WRITES_IDX_MAP : gmap string Z)
    (tid ns cid : option string) (taskId : string)
    (writes : list PendingWrite) (i : nat) (row : write_row) :
  _dumpWrites WRITES_IDX_MAP tid ns cid taskId writes !! i = Some row →
  ∃ value,
    writes !! i = Some (write_channel row, value)
    ∧ write_idx row
      = match js_get (Num <$> WRITES_IDX_MAP) (write_channel row) with
        | Undefined => Num (Z.of_nat i)
        | found => found
        end.
Proof.
  unfold _dumpWrites. rewrite list_lookup_imap. unfold PendingWrite in *.
  destruct (writes !! i) as [[channel value]|]; [|done]. simpl.
  destruct (dumpsTyped value) as [type bytes]. intros [= <-]. by exists value.
Qed.

(** What the table answers for a name is never a batch position, when its
    own indices are negative and it inherits no non-negative number. *)
Lemma table_value_not_position (WRITES_IDX_MAP : gmap string Z)
    (channel : string) (i : nat) :
  (∀ channel reserved, WRITES_IDX_MAP !! channel = Some reserved → reserved < 0) →
  (∀ name n, Object_prototype !! name = Some (Num n) → n < 0) →
  js_get (Num <$> WRITES_IDX_MAP) channel ≠ Num (Z.of_nat i).
Proof.
  intros Hown Hinherited. unfold js_get. rewrite lookup_fmap.
  destruct (WRITES_IDX_MAP !! channel) as [reserved|] eqn:Hreserved; simpl.
  - intros [= ->]. apply Hown in Hreserved. lia.
  - destruct (Object_prototype !! channel) as [v|] eqn:Hv; simpl; [|done].
    intros ->. apply Hinherited in Hv. lia.
Qed.

(** X2: When every index the table reserves is negative and the table
    inherits no non-negative number, two rows of one batch share an
    ordering slot only if neither is at its batch position, that is, only
    if the table answers for both channels (with an own or an inherited
    property): a value read from the table never collides with a batch
    position, and batch positions never collide with each other. *)
Theorem dumpWrites_slots_collide_only_reserved (WRITES_IDX_MAP : gmap string Z)
    (tid ns cid : option string) (taskId : string)
    (writes : list PendingWrite) (i j : nat) (row_i row_j : write_row) :
  (∀ channel reserved, WRITES_IDX_MAP !! channel = Some reserved → reserved < 0) →
  (∀ name n, Object_prototype !! name = Some (Num n) → n < 0) →
  _dumpWrites WRITES_IDX_MAP tid ns cid taskId writes !! i = Some row_i →
  _dumpWrites WRITES_IDX_MAP tid ns cid taskId writes !! j = Some row_j →
  i ≠ j →
  write_idx row_i = write_idx row_j →
  js_get (Num <$> WRITES_IDX_MAP) (write_channel row_i) ≠ Undefined
  ∧ js_get (Num <$> WRITES_IDX_MAP) (write_channel row_j) ≠ Undefined.
Proof.
  intros Hown Hinherited Hi Hj Hij Hidx.
  apply dumpWrites_lookup in Hi as (vi & _ & Hi).
  apply dumpWrites_lookup in Hj as (vj & _ & Hj).
  rewrite Hi, Hj in Hidx. clear Hi Hj.
  pose proof (table_value_not_position WRITES_IDX_MAP (write_channel row_i) j
                Hown Hinherited) as Hnot_j.
  pose proof (table_value_not_position WRITES_IDX_MAP (write_channel row_j) i
                Hown Hinherited) as Hnot_i.
  destruct (js_get (Num <$> WRITES_IDX_MAP) (write_channel row_i)) eqn:Hgi;
    destruct (js_get (Num <$> WRITES_IDX_MAP) (write_channel row_j)) eqn:Hgj;
    try (by split);
    exfalso; simplify_eq; try lia;
    first [by apply Hnot_i | by apply Hnot_j].
Qed.

Lemma loadWrites_of_rows (idx_of : nat → string → any)
    (tid ns cid : option string) (taskId : string)
    (writes : list PendingWrite) (stored : list stored_write) :
  (∀ channel value, (channel, value) ∈ writes →
     loadsTyped (dumpsTyped value).1 (dumpsTyped value).2 = value) →
  Forall2 write_stored_as
    (imap (λ idx '(channel, value),
             let '(type, serializedValue) := dumpsTyped value in
             ((tid, ns, cid, taskId, idx_of idx channel, channel, type,
               serializedValue) : write_row)) writes) stored →
  _loadWrites (Some stored) = (λ w, (taskId, w.1, w.2)) <$> writes.
Proof.
  revert idx_of stored.
  induction writes as [|[channel value] writes IH]; intros idx_of stored Hrt Hst.
  - apply Forall2_nil_inv_l in Hst as ->. done.
  - rewrite imap_cons in Hst.
    apply Forall2_cons_inv_l in Hst
      as ([[[tb cb] typeb] vb] & stored' & Hrow & Hst & ->).
    pose proof (Hrt channel value (list_elem_of_here _ _)) as Hvalue.
    destruct (dumpsTyped value) as [type bytes]. cbn in Hrow, Hvalue.
    destruct Hrow as (Htask & Hchannel & Htype & ->).
    specialize (IH (λ i, idx_of (S i)) stored').
    simpl in IH |- *. rewrite Htask, Hchannel, Htype, Hvalue. f_equal.
    apply IH; [|exact Hst].
    intros c v Hin. apply (Hrt c). by apply list_elem_of_further.
Qed.

(** X3: Writes survive the trip through the writes table: for a serializer
    that loads back what it dumped, [_loadWrites] on the rows of
    [_dumpWrites] as read back from the store yields the batch in its
    order, each write tagged with the task id. *)
Theorem writes_round_trip (WRITES_IDX_MAP : gmap string Z)
    (tid ns cid : option string) (taskId : string)
    (writes : list PendingWrite) (stored : list stored_write) :
  (∀ channel value, (channel, value) ∈ writes →
     loadsTyped (dumpsTyped value).1 (dumpsTyped value).2 = value) →
  Forall2 write_stored_as
    (_dumpWrites WRITES_IDX_MAP tid ns cid taskId writes) stored →
  _loadWrites (Some stored) = (λ w, (taskId, w.1, w.2)) <$> writes.
Proof.
  intros Hrt Hst.
  exact (loadWrites_of_rows
           (λ idx channel,
              match js_get (Num <$> WRITES_IDX_MAP) channel with
              | Undefined => Num (Z.of_nat idx)
              | found => found
              end) tid ns cid taskId writes stored Hrt Hst).
Qed.

End RowCodecMore.

Section BlobsMore.
Context `{serde : SerializerProtocol} `{platform : Platform}.
Context `{realm : Realm}.
Context {V : Type} `{VersionToken V}.

Lemma Object_fromEntries_dom (l : list (string * any)) :
  dom (Object_fromEntries l) = list_to_set l.*1.
Proof.
  induction l as [|[k v] l IH] using rev_ind.
  - unfold Object_fromEntries. simpl. apply dom_empty_L.
  - rewrite Object_fromEntries_snoc, dom_insert_L, IH, fmap_app.
    rewrite list_to_set_app_L. simpl.
    rewrite (right_id_L ∅ (∪)). apply (comm_L (∪)).
Qed.

(** X4: [_loadBlobs] tolerates an absent and an empty row set, and on any rows
    the channels of the loaded mapping are exactly the decoded channels of
    the rows whose type tag is not ["empty"]. *)
Theorem loadBlobs_channels (rows : list stored_blob) :
  _loadBlobs None = ∅
  ∧ _loadBlobs (Some []) = ∅
  ∧ dom (_loadBlobs (Some rows))
    = list_to_set
        ((λ r, TextDecoder_decode r.1.1)
           <$> filter (λ r, TextDecoder_decode r.1.2 ≠ "empty") rows).
Proof.
  split_and!; [done..|].
  rewrite loadBlobs_entries, Object_fromEntries_dom. f_equal.
  rewrite <- list_fmap_compose.
  induction rows as [|[[k t] v] rows IH]; [done|].
  rewrite !filter_cons. simpl.
  destruct (decide (TextDecoder_decode t ≠ "empty")); [|exact IH].
  rewrite !fmap_cons. f_equal. exact IH.
Qed.

(** X5: Rows are applied in order: a later row with a value replaces what an
    earlier row loaded for the same channel, while a later row tagged
    ["empty"] changes nothing, so it does not erase an earlier value. *)
Theorem loadBlobs_append (rows : list stored_blob) (k t v : list byte) :
  _loadBlobs (Some (rows ++ [(k, t, v)]))
  = if decide (TextDecoder_decode t ≠ "empty")
    then <[TextDecoder_decode k := loadsTyped (TextDecoder_decode t) v]>
           (_loadBlobs (Some rows))
    else _loadBlobs (Some rows).
Proof.
  rewrite !loadBlobs_entries, filter_app, fmap_app.
  rewrite filter_cons, filter_nil. simpl.
  destruct (decide (TextDecoder_decode t ≠ "empty")); simpl.
  - apply Object_fromEntries_snoc.
  - by rewrite app_nil_r.
Qed.

(** X6: The rows of [_dumpBlobs] are keyed by thread, namespace, channel and
    the text of the channel's new version: there is a row for a channel
    exactly when [versions] has it, no two rows share a key, and without a
    [versions] object there is no row. *)
Theorem dumpBlobs_keys (tid ns : option string) (values : gmap string any)
    (versions : gmap string V) :
  _dumpBlobs tid ns values None = []
  ∧ (∀ key, key ∈ blob_key <$> _dumpBlobs tid ns values (Some versions)
            ↔ ∃ k ver, versions !! k = Some ver
                       ∧ key = (tid, ns, k, version_toString ver))
  ∧ NoDup (blob_key <$> _dumpBlobs tid ns values (Some versions))
  ∧ length (_dumpBlobs tid ns values (Some versions)) = size versions.
Proof.
  assert (blob_key <$> _dumpBlobs tid ns values (Some versions)
          = (λ kv, (tid, ns, kv.1, version_toString kv.2))
              <$> Object_entries versions) as Hkeys.
  { unfold _dumpBlobs. rewrite <- list_fmap_compose.
    apply list_fmap_ext. intros _ [k ver] _. simpl.
    destruct (js_in k values); [destruct (dumpsTyped _)|]; done. }
  assert (∀ kv, kv ∈ Object_entries versions ↔ versions !! kv.1 = Some kv.2)
    as Hentry.
  { intros [k ver]. rewrite Object_entries_own. apply elem_of_map_to_list. }
  split_and!.
  - done.
  - intros key. rewrite Hkeys, list_elem_of_fmap. split.
    + intros ([k ver] & -> & Hin%Hentry). by exists k, ver.
    + intros (k & ver & Hk & ->). exists (k, ver). split; [done|].
      by apply Hentry.
  - rewrite Hkeys. apply NoDup_fmap_2_strong.
    + intros [k1 v1] [k2 v2] Hin1%Hentry Hin2%Hentry.
      intros [= -> _]. f_equal. simpl in *. congruence.
    + rewrite Object_entries_own. apply NoDup_map_to_list.
  - unfold _dumpBlobs. rewrite length_fmap, Object_entries_own.
    apply length_map_to_list.
Qed.

End BlobsMore.

(** ** Transactions of [put] and [putWrites] *)

Section QueryLoops.
Context {db : Type} `{pool : PgPool db}.

Lemma client_statements_cons_query (text : option string) (values : list any)
    (ok : bool) (ev : list event) :
  client_statements (ClientQuery text values ok :: ev)
  = (text, values) :: client_statements ev.
Proof. done. Qed.

(** A loop that sends one statement per element: the statements sent are
    a prefix of the elements' statements, in order, and when the loop
    succeeds every statement was sent and succeeded. *)
Lemma for_of_queries_events {A} (f : A → sql_statement) (xs : list A) (d : db) :
  let '(r, d', ev) := for_of xs (λ x, client_query (f x).1 (f x).2) d in
  (is_ok r = true → ev = issued true <$> (f <$> xs))
  ∧ client_statements ev `prefix_of` (f <$> xs).
Proof.
  revert d. induction xs as [|x xs IH]; intros d.
  - simpl. unfold_M. split; [done|]. apply prefix_nil.
  - cbn [for_of]. change (M_bind ?g ?m) with (m ≫= g). rewrite bind_query.
    rewrite fmap_cons.
    destruct (client_command (f x).1 (f x).2 d) as [[e|[]] d1].
    { split; [done|]. rewrite client_statements_cons_query.
      rewrite <- surjective_pairing. apply prefix_cons, prefix_nil. }
    specialize (IH d1).
    destruct (for_of xs _ d1) as [[r d2] ev]. destruct IH as [IHok IHpre].
    split.
    + intros Hok. by rewrite (IHok Hok), !fmap_cons.
    + rewrite client_statements_cons_query, <- surjective_pairing.
      by apply prefix_cons.
Qed.

Lemma client_statements_issued (ok : bool) (script : list sql_statement) :
  client_statements (issued ok <$> script) = script.
Proof.
  induction script as [|[text values] script IH]; [done|].
  rewrite fmap_cons.
  change (client_statements (issued ok (text, values) :: (issued ok <$> script)))
    with ((text, values) :: client_statements (issued ok <$> script)).
  by rewrite IH.
Qed.

Lemma client_statements_app (ev1 ev2 : list event) :
  client_statements (ev1 ++ ev2) = client_statements ev1 ++ client_statements ev2.
Proof. unfold client_statements. apply omap_app. Qed.

End QueryLoops.

Section PutRun.
Context `{serde : SerializerProtocol} `{platform : Platform} `{sql : SqlModule}.
Context `{realm : Realm}.
Context {V : Type} `{VersionToken V}.
Context {db : Type} `{pool : PgPool db}.

Lemma put_run_shape (config : RunnableConfig) (c : Configurable)
    (checkpoint : Checkpoint) (metadata : gmap string any)
    (newVersions : option (gmap string V)) (d : db) :
  configurable config = Some c →
  let script :=
    (Some "BEGIN", []) :: put_script c checkpoint metadata newVersions
    ++ [(Some "COMMIT", [])] in
  let '(r, d', ev) := put config checkpoint metadata newVersions d in
  match r with
  | inr next =>
      next = {| configurable :=
                  Some {| thread_id := thread_id c;
                          checkpoint_ns :=
                            Some (default EmptyString (checkpoint_ns c));
                          checkpoint_id := Some (id checkpoint) |} |}
      ∧ ev = Connect true :: (issued true <$> script) ++ [Release]
  | inl _ =>
      ev = [Connect false]
      ∨ ∃ pre ok,
          ev = Connect true
               :: pre ++ [ClientQuery (Some "ROLLBACK") [] ok; Release]
          ∧ client_statements pre `prefix_of` script
  end.
Proof.
  intros Hc script. unfold put. rewrite Hc. rewrite bind_connect.
  destruct (pool_connect d) as [[e|[]] d0]; [by left|].
  unfold script, put_script.
  destruct (_dumpCheckpoint checkpoint) as [type serializedCheckpoint].
  cbn [snd]. rewrite bind_run, transaction_frame, bind_query.
  set (rows := _dumpBlobs _ _ _ _).
  set (blob_statement := λ b : blob_row,
         (Some UPSERT_CHECKPOINT_BLOBS_SQL, blob_values b) : sql_statement).
  match goal with
  | |- context [client_query (Some UPSERT_CHECKPOINTS_SQL) ?vs] =>
      set (checkpoint_values := vs)
  end.
  destruct (client_command (Some "BEGIN") [] d0) as [[e|[]] d1].
  { destruct (client_command (Some "ROLLBACK") [] d1) as [rr d2].
    right. eexists _, _. split; [done|]. apply prefix_cons, prefix_nil. }
  rewrite bind_run.
  pose proof (for_of_queries_events blob_statement rows d1) as Hloop.
  cbn [blob_statement fst snd] in Hloop.
  destruct (for_of rows _ d1) as [[[e|[]] d2] evl]; destruct Hloop as [Hok Hpre].
  { destruct (client_command (Some "ROLLBACK") [] d2) as [rr d3].
    right. eexists _, _. split; [done|].
    rewrite client_statements_cons_query. apply prefix_cons.
    rewrite <- app_assoc. by apply prefix_app_r. }
  rewrite (Hok eq_refl). clear Hok Hpre. rewrite bind_query.
  destruct (client_command (Some UPSERT_CHECKPOINTS_SQL) checkpoint_values d2)
    as [[e|[]] d3].
  { destruct (client_command (Some "ROLLBACK") [] d3) as [rr d4].
    right. eexists _, _. split; [done|].
    rewrite client_statements_cons_query. apply prefix_cons.
    rewrite client_statements_app, client_statements_issued.
    rewrite <- app_assoc. apply prefix_app.
    rewrite client_statements_cons_query. apply prefix_cons, prefix_nil. }
  rewrite query_run.
  destruct (client_command (Some "COMMIT") [] d3) as [[e|[]] d4].
  { destruct (client_command (Some "ROLLBACK") [] d4) as [rr d5].
    right. eexists _, _. split; [done|].
    rewrite client_statements_cons_query. apply prefix_cons.
    rewrite client_statements_app, client_statements_issued.
    rewrite <- app_assoc. apply prefix_app.
    do 2 (rewrite client_statements_cons_query; apply prefix_cons).
    apply prefix_nil. }
  split; [done|]. simpl. rewrite !fmap_app. simpl.
  by rewrite <- !app_assoc.
Qed.

(** X7: On any pool, a [put] that returns has sent BEGIN, one blob upsert per
    row of [_dumpBlobs] in order, the checkpoint upsert (with the incoming
    [checkpoint_id] as parent) and COMMIT, all successful, and returns the
    config made of the input thread id, the namespace (empty string by
    default) and the checkpoint's own id.  A [put] in which a call to the pool fails after
    the client was obtained has sent a prefix of those statements, then
    ROLLBACK, and has released the client. *)
Theorem put_run (config : RunnableConfig) (c : Configurable)
    (checkpoint : Checkpoint) (metadata : gmap string any)
    (newVersions : option (gmap string V)) (d : db) :
  configurable config = Some c →
  let script :=
    (Some "BEGIN", []) :: put_script c checkpoint metadata newVersions
    ++ [(Some "COMMIT", [])] in
  let '(r, d', ev) := put config checkpoint metadata newVersions d in
  match r with
  | inr next =>
      next = {| configurable :=
                  Some {| thread_id := thread_id c;
                          checkpoint_ns :=
                            Some (default EmptyString (checkpoint_ns c));
                          checkpoint_id := Some (id checkpoint) |} |}
      ∧ ev = Connect true :: (issued true <$> script) ++ [Release]
  | inl _ =>
      ev = [Connect false]
      ∨ ∃ pre ok,
          ev = Connect true
               :: pre ++ [ClientQuery (Some "ROLLBACK") [] ok; Release]
          ∧ client_statements pre `prefix_of` script
  end.
Proof. apply put_run_shape. Qed.

(** X8: The config [put] returns is the key of the row it wrote: for a
    checkpoint with a non-empty id, [getTuple] on the returned config looks
    up exactly the thread, namespace and checkpoint id that [put] passed as
    the first three values of its checkpoint upsert. *)
Theorem put_result_addresses_checkpoint (config : RunnableConfig)
    (c : Configurable) (checkpoint : Checkpoint) (metadata : gmap string any)
    (newVersions : option (gmap string V)) (d d' : db)
    (next : RunnableConfig) (ev : list event) :
  configurable config = Some c →
  id checkpoint ≠ EmptyString →
  put config checkpoint metadata newVersions d = (inr next, d', ev) →
  let key := [js_of_opt (thread_id c);
              Str (default EmptyString (checkpoint_ns c));
              Str (id checkpoint)] in
  (∃ ok, (getTuple next d').2
         = [PoolQuery (SELECT_SQL +:+ WHERE_EXACT) key ok])
  ∧ ∃ rest,
      ClientQuery (Some UPSERT_CHECKPOINTS_SQL) (key ++ rest) true ∈ ev.
Proof.
  intros Hc Hid Hput key.
  pose proof (put_run_shape config c checkpoint metadata newVersions d Hc)
    as Hrun.
  rewrite Hput in Hrun. destruct Hrun as [-> ->]. split.
  - unfold getTuple. simpl.
    assert (String.eqb (id checkpoint) EmptyString = false) as ->
      by by apply String.eqb_neq.
    simpl. rewrite bind_run. unfold pool_query.
    destruct (pool_select_rows _ _ d') as [[e|[|row rows]] d1]; by eexists.
  - eexists. apply list_elem_of_further, elem_of_app. left.
    rewrite fmap_cons. apply list_elem_of_further.
    rewrite fmap_app, elem_of_app. left.
    unfold put_script. rewrite fmap_app, elem_of_app. right.
    rewrite list_fmap_singleton. apply list_elem_of_singleton.
    unfold issued. simpl. reflexivity.
Qed.

(** X9: Chaining: when the config returned by one [put] is passed to the next,
    the next checkpoint row is written in the same thread and namespace
    with the previous checkpoint's id as its parent. *)
Theorem put_chains_parent (config : RunnableConfig) (c : Configurable)
    (first second : Checkpoint) (metadata1 metadata2 : gmap string any)
    (versions1 versions2 : option (gmap string V)) (d d1 d2 : db)
    (next1 next2 : RunnableConfig) (ev1 ev2 : list event) :
  configurable config = Some c →
  put config first metadata1 versions1 d = (inr next1, d1, ev1) →
  put next1 second metadata2 versions2 d1 = (inr next2, d2, ev2) →
  ClientQuery (Some UPSERT_CHECKPOINTS_SQL)
    [js_of_opt (thread_id c); Str (default EmptyString (checkpoint_ns c));
     Str (id second); Str (id first); Bytes (_dumpCheckpoint second).2;
     Str (_dumpMetadata metadata2)] true ∈ ev2
  ∧ next2 = {| configurable :=
                 Some {| thread_id := thread_id c;
                         checkpoint_ns :=
                           Some (default EmptyString (checkpoint_ns c));
                         checkpoint_id := Some (id second) |} |}.
Proof.
  intros Hc Hput1 Hput2.
  pose proof (put_run_shape config c first metadata1 versions1 d Hc) as Hrun1.
  rewrite Hput1 in Hrun1. destruct Hrun1 as [-> _].
  pose proof (put_run_shape _ _ second metadata2 versions2 d1
                (eq_refl (configurable
                   {| configurable :=
                        Some {| thread_id := thread_id c;
                                checkpoint_ns :=
                                  Some (default EmptyString (checkpoint_ns c));
                                checkpoint_id := Some (id first) |} |})))
    as Hrun2.
  rewrite Hput2 in Hrun2. destruct Hrun2 as [-> ->]. split; [|done].
  apply list_elem_of_further, elem_of_app. left.
  rewrite fmap_cons. apply list_elem_of_further.
  rewrite fmap_app, elem_of_app. left.
  unfold put_script. rewrite fmap_app, elem_of_app. right.
  rewrite list_fmap_singleton. apply list_elem_of_singleton.
  reflexivity.
Qed.

End PutRun.

Lemma apply_script_app {data : Type}
    (statement : option string → list any → data → (Error + unit) * data)
    (s1 s2 : list sql_statement) (w : data) :
  apply_script statement (s1 ++ s2) w
  = let '(r, w1) := apply_script statement s1 w in
    match r with
    | inl e => (inl e, w1)
    | inr _ => apply_script statement s2 w1
    end.
Proof.
  revert w. induction s1 as [|[text values] s1 IH]; intros w; [done|].
  simpl. destruct (statement text values w) as [[e|[]] w1]; [done|]. apply IH.
Qed.

Section WritesOnTxStore.
Context `{serde : SerializerProtocol} `{platform : Platform} `{sql : SqlModule}.
Context `{realm : Realm}.
Context {V : Type} `{VersionToken V}.
Context (WRITES_IDX_MAP : gmap string Z).
Context {data : Type}.
Context (statement : option string → list any → data → (Error + unit) * data).
Context (ledger : data → Error + list Z).
Context (control_fault : string → data → option Error).

Local Abbreviation txp := (tx_pool statement ledger control_fault).

Ltac tx_rollback :=
  match goal with
  | |- context [tx_command ?st ?cf (Some "ROLLBACK") [] ?d] =>
      let Hrb := fresh "Hrb" in
      pose proof (tx_rollback_committed st cf d) as Hrb;
      destruct (tx_command st cf (Some "ROLLBACK") [] d);
      simpl in Hrb |- *; congruence
  end.

Lemma tx_for_of_queries {A} (f : A → sql_statement) (xs : list A) (c w : data) :
  (∀ x name, x ∈ xs → name ∈ transaction_control → (f x).1 ≠ Some name) →
  ∃ ev,
    for_of xs (λ x, client_query (pool := txp) (f x).1 (f x).2)
      {| committed := c; working := Some w |}
    = ((apply_script statement (f <$> xs) w).1,
       {| committed := c;
          working := Some (apply_script statement (f <$> xs) w).2 |},
       ev).
Proof.
  revert w. induction xs as [|x xs IH]; intros w Hf.
  - by eexists.
  - cbn [for_of]. change (M_bind ?g ?m) with (m ≫= g). rewrite bind_query.
    change (client_command (PgPool := txp))
      with (tx_command statement control_fault).
    rewrite tx_command_ordinary.
    2:{ intros name Hname. apply (Hf x); [apply list_elem_of_here|done]. }
    rewrite fmap_cons. cbn [apply_script].
    destruct (f x) as [text values]. cbn [fst snd].
    destruct (statement text values w) as [[e|[]] w1]; [by eexists|].
    destruct (IH w1) as [ev ->].
    { intros y name Hy. apply Hf. by apply list_elem_of_further. }
    by eexists.
Qed.

Lemma tx_begin (c : data) :
  tx_command statement control_fault (Some "BEGIN") []
    {| committed := c; working := None |}
  = match control_fault "BEGIN" c with
    | Some e => (inl e, {| committed := c; working := None |})
    | None => (inr (), {| committed := c; working := Some c |})
    end.
Proof. unfold tx_command. by rewrite bool_decide_eq_true_2 by done. Qed.

Lemma tx_commit (c w : data) :
  tx_command statement control_fault (Some "COMMIT") []
    {| committed := c; working := Some w |}
  = match control_fault "COMMIT" c with
    | Some e => (inl e, {| committed := c; working := Some w |})
    | None => (inr (), {| committed := w; working := None |})
    end.
Proof.
  unfold tx_command. rewrite bool_decide_eq_false_2 by done.
  by rewrite bool_decide_eq_true_2 by done.
Qed.

(** X10: [put] is all-or-nothing on a store with snapshot transactions: a
    failing [put] leaves the committed contents unchanged, and a [put] that
    returns has committed the effect of its blob upserts followed by the
    checkpoint upsert, nothing else.  (The two statement texts are not
    themselves BEGIN, COMMIT or ROLLBACK.) *)
Theorem put_atomic (config : RunnableConfig) (checkpoint : Checkpoint)
    (metadata : gmap string any) (newVersions : option (gmap string V))
    (c : data) :
  UPSERT_CHECKPOINT_BLOBS_SQL ∉ transaction_control →
  UPSERT_CHECKPOINTS_SQL ∉ transaction_control →
  let '(r, s', _) :=
    put (pool := txp) config checkpoint metadata newVersions
      {| committed := c; working := None |} in
  match r with
  | inl _ => committed s' = c
  | inr _ =>
      ∃ conf,
        configurable config = Some conf
        ∧ apply_script statement
            (put_script conf checkpoint metadata newVersions) c
          = (inr (), committed s')
        ∧ working s' = None
  end.
Proof.
  intros Hblobs Hcheckpoints. unfold put.
  destruct (configurable config) as [conf|]; [|done].
  rewrite bind_connect. cbn [pool_connect tx_pool]. unfold tx_control at 1.
  cbn [committed]. destruct (control_fault "connect" c); [done|].
  unfold put_script.
  destruct (_dumpCheckpoint checkpoint) as [type serializedCheckpoint].
  cbn [snd]. rewrite bind_run, transaction_frame, bind_query.
  change (client_command (PgPool := txp))
    with (tx_command statement control_fault).
  rewrite tx_begin.
  set (rows := _dumpBlobs _ _ _ _).
  set (blob_statement := λ b : blob_row,
         (Some UPSERT_CHECKPOINT_BLOBS_SQL, blob_values b) : sql_statement).
  match goal with
  | |- context [client_query (Some UPSERT_CHECKPOINTS_SQL) ?vs] =>
      set (checkpoint_values := vs)
  end.
  destruct (control_fault "BEGIN" c); [tx_rollback|].
  rewrite bind_run.
  destruct (tx_for_of_queries blob_statement rows c c) as [ev Hloop].
  { intros b name _ Hname [= Heq]. apply Hblobs. by rewrite Heq. }
  cbn [blob_statement fst snd] in Hloop. rewrite Hloop. clear Hloop.
  destruct (apply_script statement (blob_statement <$> rows) c)
    as [[e|[]] w1] eqn:Hblob_script; cbn [fst snd]; [tx_rollback|].
  rewrite bind_query.
  change (client_command (PgPool := txp))
    with (tx_command statement control_fault).
  rewrite tx_command_ordinary.
  2:{ intros name Hname [= Heq]. apply Hcheckpoints. by rewrite Heq. }
  destruct (statement (Some UPSERT_CHECKPOINTS_SQL) checkpoint_values w1)
    as [[e|[]] w2] eqn:Hcheckpoint; [tx_rollback|].
  rewrite query_run.
  change (client_command (PgPool := txp))
    with (tx_command statement control_fault).
  rewrite tx_commit.
  destruct (control_fault "COMMIT" c); [tx_rollback|].
  simpl. exists conf. split_and!; [done| |done].
  subst rows checkpoint_values. rewrite apply_script_app.
  unfold sql_statement in *. rewrite Hblob_script. simpl.
  by rewrite Hcheckpoint.
Qed.

(** X11: [putWrites] is all-or-nothing on a store with snapshot transactions:
    a failing call leaves the committed contents unchanged, and a call that
    returns has committed the effect of its one statement.  (The two
    statement texts are not themselves BEGIN, COMMIT or ROLLBACK.) *)
Theorem putWrites_atomic (config : RunnableConfig) (writes : list PendingWrite)
    (taskId : string) (c : data) :
  UPSERT_CHECKPOINT_WRITES_SQL ∉ transaction_control →
  INSERT_CHECKPOINT_WRITES_SQL ∉ transaction_control →
  let '(r, s', _) :=
    putWrites (pool := txp) WRITES_IDX_MAP config writes taskId
      {| committed := c; working := None |} in
  match r with
  | inl _ => committed s' = c
  | inr _ =>
      statement (Some (putWrites_query WRITES_IDX_MAP writes))
        (write_values
           <$> _dumpWrites WRITES_IDX_MAP
                 (configurable config ?. thread_id)
                 (configurable config ?. checkpoint_ns)
                 (configurable config ?. checkpoint_id) taskId writes) c
      = (inr (), committed s')
      ∧ working s' = None
  end.
Proof.
  intros Hupsert Hinsert. unfold putWrites.
  rewrite bind_connect. cbn [pool_connect tx_pool]. unfold tx_control at 1.
  cbn [committed]. destruct (control_fault "connect" c); [done|].
  rewrite transaction_frame, bind_query.
  change (client_command (PgPool := txp))
    with (tx_command statement control_fault).
  rewrite tx_begin.
  destruct (control_fault "BEGIN" c); [tx_rollback|].
  rewrite bind_query.
  change (client_command (PgPool := txp))
    with (tx_command statement control_fault).
  rewrite tx_command_ordinary.
  2:{ intros name Hname [= Heq]. unfold putWrites_query in Heq.
      match type of Heq with
      | (if ?b then _ else _) = _ => destruct b
      end; [apply Hupsert|apply Hinsert]; by rewrite Heq. }
  match goal with
  | |- context [statement ?text ?values c] =>
      destruct (statement text values c) as [[e|[]] w1]
  end; [tx_rollback|].
  rewrite query_run.
  change (client_command (PgPool := txp))
    with (tx_command statement control_fault).
  rewrite tx_commit.
  destruct (control_fault "COMMIT" c); [tx_rollback|].
  done.
Qed.

End WritesOnTxStore.

(** ** Errors and the client *)

Section ErrorsAndClient.
Context `{serde : SerializerProtocol} `{platform : Platform} `{sql : SqlModule}.
Context `{realm : Realm}.
Context (WRITES_IDX_MAP : gmap string Z) (MIGRATIONS : list string).
Context {db : Type} `{pool : PgPool db}.

(** X12: When the write statement of [putWrites] fails, ROLLBACK is sent and
    the failure is rethrown; if ROLLBACK fails as well, its failure is the
    one the caller sees. *)
Theorem putWrites_rethrows (config : RunnableConfig)
    (writes : list PendingWrite) (taskId : string) (d d0 d1 d2 : db)
    (e : Error) :
  pool_connect d = (inr (), d0) →
  client_command (Some "BEGIN") [] d0 = (inr (), d1) →
  client_command (Some (putWrites_query WRITES_IDX_MAP writes))
    (write_values
       <$> _dumpWrites WRITES_IDX_MAP
             (configurable config ?. thread_id)
             (configurable config ?. checkpoint_ns)
             (configurable config ?. checkpoint_id) taskId writes) d1
  = (inl e, d2) →
  (putWrites WRITES_IDX_MAP config writes taskId d).1.1
  = match (client_command (Some "ROLLBACK") [] d2).1 with
    | inl e' => inl e'
    | inr _ => inl e
    end
  ∧ client_statements (putWrites WRITES_IDX_MAP config writes taskId d).2
    = [(Some "BEGIN", []);
       (Some (putWrites_query WRITES_IDX_MAP writes),
        write_values
          <$> _dumpWrites WRITES_IDX_MAP
                (configurable config ?. thread_id)
                (configurable config ?. checkpoint_ns)
                (configurable config ?. checkpoint_id) taskId writes);
       (Some "ROLLBACK", [])].
Proof.
  intros Hconnect Hbegin Hwrite. unfold putWrites.
  rewrite bind_connect, Hconnect, transaction_frame, bind_query, Hbegin.
  rewrite bind_query, Hwrite.
  by destruct (client_command (Some "ROLLBACK") [] d2) as [[e'|[]] d3].
Qed.

(** X13: [putWrites] passes the rows of [_dumpWrites] themselves as the
    parameter list of its one statement: once BEGIN has succeeded, the
    statement is sent with one parameter per write of the batch, each an
    array of the eight columns of a row. *)
Theorem putWrites_one_parameter_per_write (config : RunnableConfig)
    (writes : list PendingWrite) (taskId : string) (d d0 d1 : db) :
  pool_connect d = (inr (), d0) →
  client_command (Some "BEGIN") [] d0 = (inr (), d1) →
  ∃ values ok,
    (putWrites WRITES_IDX_MAP config writes taskId d).2 !! 2%nat
    = Some (ClientQuery (Some (putWrites_query WRITES_IDX_MAP writes))
              values ok)
    ∧ length values = length writes
    ∧ Forall (λ v, ∃ columns, v = Arr columns ∧ length columns = 8%nat) values.
Proof.
  intros Hconnect Hbegin.
  exists (write_values
            <$> _dumpWrites WRITES_IDX_MAP
                  (configurable config ?. thread_id)
                  (configurable config ?. checkpoint_ns)
                  (configurable config ?. checkpoint_id) taskId writes).
  assert (∀ rows : list write_row,
            Forall (λ v, ∃ columns, v = Arr columns ∧ length columns = 8%nat)
                   (write_values <$> rows)) as Hcolumns.
  { intros rows. apply Forall_fmap, Forall_forall.
    intros [[[[[[[tid ns] cid] task] idx] channel] type] value] _.
    by eexists. }
  unfold putWrites.
  rewrite bind_connect, Hconnect, transaction_frame, bind_query, Hbegin.
  rewrite bind_query.
  destruct (client_command (Some (putWrites_query WRITES_IDX_MAP writes)) _ d1)
    as [[e|[]] d2].
  - destruct (client_command (Some "ROLLBACK") [] d2) as [rr d3].
    exists false. split; [reflexivity|]. split; [|apply Hcolumns].
    unfold _dumpWrites. by rewrite length_fmap, length_imap.
  - rewrite query_run.
    destruct (client_command (Some "COMMIT") [] d2) as [[e|[]] d3].
    + destruct (client_command (Some "ROLLBACK") [] d3) as [rr d4].
      exists true. split; [reflexivity|]. split; [|apply Hcolumns].
      unfold _dumpWrites. by rewrite length_fmap, length_imap.
    + exists true. split; [reflexivity|]. split; [|apply Hcolumns].
      unfold _dumpWrites. by rewrite length_fmap, length_imap.
Qed.

End ErrorsAndClient.

(** ** Schema migrator *)

Lemma append_cons (c : Ascii.ascii) (a b : string) :
  String c a +:+ b = String c (a +:+ b).
Proof. done. Qed.

Lemma append_nil_l (b : string) : EmptyString +:+ b = b.
Proof. done. Qed.

Lemma prefix_spec (a s : string) :
  String.prefix a s = true ↔ ∃ post, s = a +:+ post.
Proof.
  revert s. induction a as [|c a IH]; intros s.
  - split; [intros _; by exists s|intros _; by destruct s].
  - destruct s as [|c' s]; cbn.
    + split; [done|]. intros [post Hpost]. by rewrite append_cons in Hpost.
    + destruct (Ascii.ascii_dec c c') as [->|Hne].
      * rewrite IH. split; intros [post Hpost]; exists post.
        -- by rewrite append_cons, Hpost.
        -- rewrite append_cons in Hpost. congruence.
      * split; [done|]. intros [post Hpost].
        rewrite append_cons in Hpost. congruence.
Qed.

Lemma includes_spec (needle s : string) :
  includes needle s = true ↔ ∃ pre post, s = pre +:+ needle +:+ post.
Proof.
  induction s as [|c s IH]; cbn [includes].
  - rewrite orb_false_r, prefix_spec. split.
    + intros [post Hpost]. by exists EmptyString, post.
    + intros ([|c pre] & post & Hs).
      * by exists post.
      * by rewrite append_cons in Hs.
  - rewrite orb_true_iff, prefix_spec, IH. split.
    + intros [[post Hpost]|(pre & post & ->)].
      * by exists EmptyString, post.
      * by exists (String c pre), post.
    + intros ([|c' pre] & post & Hs).
      * left. by exists post.
      * right. rewrite append_cons in Hs. injection Hs as -> ->.
        by exists pre, post.
Qed.

Section MigratorMore.
Context (MIGRATIONS : list string).
Context {db : Type} `{pool : PgPool db}.

(** X14: The ledger counts as missing exactly when the message of the failed
    select contains the phrase [relation "checkpoint_migrations" does not
    exist] somewhere, with any text before and after it; every other
    failure of the select is rethrown as it is. *)
Theorem ledger_missing_by_substring (d d' : db) (e : Error) :
  client_select_v SELECT_VERSION_SQL d = (inl e, d') →
  ((∃ pre post, message e = pre +:+ LEDGER_MISSING +:+ post) →
   (read_version d).1.1 = inr (-1))
  ∧ (¬ (∃ pre post, message e = pre +:+ LEDGER_MISSING +:+ post) →
     (read_version d).1.1 = inl e).
Proof.
  intros Hselect. rewrite read_version_rule, Hselect. simpl.
  destruct (includes LEDGER_MISSING (message e)) eqn:Hincl.
  - split; [done|]. intros Hnot. exfalso. by apply Hnot, includes_spec.
  - split; [|done]. intros Hsub%includes_spec. congruence.
Qed.

Lemma js_index_of_nat {A} (l : list A) (k : nat) :
  js_index l (Z.of_nat k) = l !! k.
Proof.
  unfold js_index. destruct (Z.ltb_spec (Z.of_nat k) 0); [lia|].
  by rewrite Nat2Z.id.
Qed.

Lemma migration_statements_from (remaining first : nat) :
  (length MIGRATIONS - first = remaining)%nat →
  flat_map (λ v, [(js_index MIGRATIONS v, @nil any);
                  (Some INSERT_VERSION_SQL, [Num v])])
           (seqZ (Z.of_nat first)
                 (Z.of_nat (length MIGRATIONS) - Z.of_nat first))
  = migrations_from MIGRATIONS first.
Proof.
  unfold migrations_from. revert first.
  induction remaining as [|remaining IH]; intros first Hlen.
  - rewrite seqZ_nil by lia. rewrite drop_ge; [done|]. rewrite length_imap. lia.
  - destruct (lookup_lt_is_Some_2 MIGRATIONS first) as [m Hm]; [lia|].
    rewrite seqZ_cons by lia.
    rewrite (drop_S _ (Z.of_nat first, m)).
    2:{ by rewrite list_lookup_imap, Hm. }
    cbn [flat_map fst snd]. rewrite js_index_of_nat, Hm. do 2 f_equal.
    rewrite <- (IH (S first)) by lia. do 2 f_equal; lia.
Qed.

(** X15: The loop stays within [MIGRATIONS] whenever the version read is at
    least [-1]: it then sends, for each entry from position [version + 1]
    to the end and in order, the entry's text followed by the insertion of
    its position.  A version below [-1] starts the loop at a negative
    index, where the text handed to [client.query] is [undefined]. *)
Theorem migration_script_bounds (version : Z) :
  (-1 ≤ version →
   migration_script MIGRATIONS version
   = migrations_from MIGRATIONS (Z.to_nat (version + 1)))
  ∧ (version < -1 →
     ∃ rest,
       migration_script MIGRATIONS version
       = (None, []) :: (Some INSERT_VERSION_SQL, [Num (version + 1)]) :: rest).
Proof.
  split.
  - intros Hversion. unfold migration_script, pending_migrations.
    destruct (decide (Z.to_nat (version + 1) ≤ length MIGRATIONS)%nat) as [Hle|Hgt].
    + rewrite <- (migration_statements_from
                    (length MIGRATIONS - Z.to_nat (version + 1))
                    (Z.to_nat (version + 1))) by done.
      by rewrite Z2Nat.id by lia.
    + rewrite seqZ_nil by lia. unfold migrations_from.
      rewrite drop_ge; [done|]. rewrite length_imap. lia.
  - intros Hversion. unfold migration_script.
    rewrite pending_migrations_unfold.
    destruct (Z.ltb_spec (version + 1) (Z.of_nat (length MIGRATIONS))); [|lia].
    cbn [flat_map]. unfold js_index at 1.
    destruct (Z.ltb_spec (version + 1) 0); [|lia]. by eexists.
Qed.

End MigratorMore.

Section MigratorOnTxStore.
Context (MIGRATIONS : list string).
Context {data : Type}.
Context (statement : option string → list any → data → (Error + unit) * data).
Context (ledger : data → Error + list Z).
Context (control_fault : string → data → option Error).

Local Abbreviation txp := (tx_pool statement ledger control_fault).

Ltac up_to_date_failure :=
  match goal with
  | |- context [tx_command ?st ?cf (Some "ROLLBACK") [] ?d] =>
      let Hrb := fresh "Hrb" in
      pose proof (tx_rollback_committed st cf d) as Hrb;
      destruct (tx_command st cf (Some "ROLLBACK") [] d);
      simpl in Hrb |- *;
      split; [congruence|repeat (constructor; [solve_elem_of_list|]); constructor]
  end.

(** X16: Running [setup] against a ledger that is already at the last
    migration (or beyond) sends no migration and no ledger insertion, only
    BEGIN, the ledger select and COMMIT (with ROLLBACK after a failure),
    and leaves the committed contents as they were: a second [setup] after
    a complete one is a no-op. *)
Theorem setup_up_to_date (c : data) (v : Z) (rows : list Z) :
  ledger c = inr (v :: rows) →
  Z.of_nat (length MIGRATIONS) - 1 ≤ v →
  let '(r, s', ev) :=
    setup (pool := txp) MIGRATIONS {| committed := c; working := None |} in
  committed s' = c
  ∧ Forall (λ s, s ∈ [(Some "BEGIN", []); (Some SELECT_VERSION_SQL, []);
                      (Some "COMMIT", []); (Some "ROLLBACK", [])])
           (client_statements ev).
Proof.
  intros Hledger Hv. unfold setup. rewrite bind_connect.
  cbn [pool_connect tx_pool]. unfold tx_control at 1. cbn [committed].
  destruct (control_fault "connect" c); [by split; [|constructor]|].
  rewrite transaction_frame, bind_query.
  change (client_command (PgPool := txp))
    with (tx_command statement control_fault).
  unfold tx_command at 1. rewrite bool_decide_eq_true_2 by done.
  unfold tx_control at 1.
  cbn [committed working default from_option Datatypes.id].
  destruct (control_fault "BEGIN" c); [up_to_date_failure|].
  rewrite bind_run, read_version_rule. cbn [client_select_v tx_pool].
  cbn [committed working default from_option Datatypes.id].
  rewrite Hledger. cbn [version_of_ledger_read]. rewrite bind_run.
  unfold pending_migrations. rewrite seqZ_nil by lia. cbn [for_of].
  unfold M_ret at 1. rewrite query_run.
  change (client_command (PgPool := txp))
    with (tx_command statement control_fault).
  unfold tx_command at 1. rewrite bool_decide_eq_false_2 by done.
  rewrite bool_decide_eq_true_2 by done.
  unfold tx_control at 1.
  cbn [committed working default from_option Datatypes.id].
  destruct (control_fault "COMMIT" c); [up_to_date_failure|].
  simpl. split; [done|]. repeat (constructor; [solve_elem_of_list|]).
  constructor.
Qed.

End MigratorOnTxStore.

Section MigratorOnAbortingStore.
Context {data : Type}.
Context (statement : option string → list any → data → (Error + unit) * data).
Context (ledger : data → Error + list Z).

Local Abbreviation pgp := (pg_pool statement ledger).

(** X17: [setup] reads the ledger inside the transaction it has just opened and
    treats a missing ledger as version -1.  On a store that refuses every
    statement of a transaction after one of them has failed, the failed
    ledger select therefore dooms the first migration: [setup] with at
    least one migration sends BEGIN, the select, the first migration and
    ROLLBACK, fails with the store's refusal and commits nothing. *)
Theorem setup_missing_ledger_aborts (m : string) (rest : list string)
    (c : data) (e : Error) :
  ledger c = inl e →
  includes LEDGER_MISSING (message e) = true →
  m ∉ transaction_control →
  setup (pool := pgp) (m :: rest) {| pg_committed := c; pg_phase := Idle |}
  = (inl TRANSACTION_ABORTED, {| pg_committed := c; pg_phase := Idle |},
     [Connect true;
      ClientQuery (Some "BEGIN") [] true;
      ClientQuery (Some SELECT_VERSION_SQL) [] false;
      ClientQuery (Some m) [] false;
      ClientQuery (Some "ROLLBACK") [] true;
      Release]).
Proof.
  intros Hledger Hmissing Hm.
  assert (Some m ≠ Some "ROLLBACK" ∧ Some m ≠ Some "COMMIT") as [Hrb Hco].
  { split; intros [= ->]; apply Hm; solve_elem_of_list. }
  unfold setup. rewrite bind_connect. cbn [pool_connect pg_pool].
  rewrite transaction_frame, bind_query.
  change (client_command (PgPool := pgp)) with (pg_command statement).
  unfold pg_command at 1. rewrite !bool_decide_eq_false_2 by done.
  cbn [pg_phase pg_committed]. rewrite bool_decide_eq_true_2 by done.
  rewrite bind_run, read_version_rule. cbn [client_select_v pg_pool].
  unfold pg_select_v. cbn [pg_phase pg_committed]. rewrite Hledger.
  cbn [version_of_ledger_read is_ok]. rewrite Hmissing, bind_run.
  rewrite pending_migrations_unfold.
  assert ((-1 + 1 <? Z.of_nat (length (m :: rest))) = true) as ->.
  { apply Z.ltb_lt. cbn [length]. lia. }
  cbn [for_of]. change (M_bind ?g ?k) with (k ≫= g).
  rewrite bind_run, migrate_step_run.
  change (client_command (PgPool := pgp)) with (pg_command statement).
  change (js_index (m :: rest) (-1 + 1)) with (Some m).
  unfold pg_command at 1. rewrite !bool_decide_eq_false_2 by done.
  cbn [pg_phase].
  unfold pg_command. rewrite bool_decide_eq_true_2 by done.
  reflexivity.
Qed.

End MigratorOnAbortingStore.

Section ClientDiscipline.
Context `{serde : SerializerProtocol} `{platform : Platform} `{sql : SqlModule}.
Context `{realm : Realm}.
Context (WRITES_IDX_MAP : gmap string Z) (MIGRATIONS : list string).
Context {db : Type} `{pool : PgPool db}.

Ltac solve_queries :=
  repeat first
    [ assumption
    | apply Forall_nil_2
    | apply Forall_cons; split; [exact I|]
    | apply Forall_app; split ].

Lemma setup_client (d : db) : client_used_and_released (setup MIGRATIONS d).2.
Proof.
  unfold client_used_and_released, setup. rewrite bind_connect.
  destruct (pool_connect d) as [[e|[]] d0]; [by left|]. right.
  rewrite transaction_frame, bind_query.
  destruct (client_command (Some "BEGIN") [] d0) as [[e|[]] d1].
  { destruct (client_command (Some "ROLLBACK") [] d1) as [rr d2]. simpl.
    eexists (_ :: _ :: []). split; [done|]. solve_queries. }
  rewrite bind_run, read_version_rule.
  destruct (client_select_v SELECT_VERSION_SQL d1) as [rsel d2].
  destruct (version_of_ledger_read rsel) as [e|version].
  { destruct (client_command (Some "ROLLBACK") [] d2) as [rr d3]. simpl.
    eexists (_ :: _ :: _ :: []). split; [done|]. solve_queries. }
  rewrite bind_run.
  pose proof (migration_loop_events MIGRATIONS
                (pending_migrations MIGRATIONS version) d2) as Hloop.
  destruct (for_of _ _ d2) as [[[e|[]] d3] evl]; destruct Hloop as [_ Hall].
  - assert (Forall is_client_query evl) as Hevl.
    { eapply Forall_impl; [exact Hall|]. by intros ev (ok & s & -> & _). }
    destruct (client_command (Some "ROLLBACK") [] d3) as [rr d4]. simpl.
    eexists (_ :: _ :: (evl ++ [_])). split.
    { simpl. by rewrite <- !app_assoc. }
    solve_queries.
  - assert (Forall is_client_query evl) as Hevl.
    { eapply Forall_impl; [exact Hall|]. by intros ev (ok & s & -> & _). }
    rewrite query_run.
    destruct (client_command (Some "COMMIT") [] d3) as [[e|[]] d4].
    + destruct (client_command (Some "ROLLBACK") [] d4) as [rr d5]. simpl.
      eexists (_ :: _ :: (evl ++ [_; _])). split.
      { simpl. by rewrite <- !app_assoc. }
      solve_queries.
    + simpl. eexists (_ :: _ :: (evl ++ [_])). split.
      { simpl. by rewrite <- !app_assoc. }
      solve_queries.
Qed.

Lemma putWrites_client (config : RunnableConfig) (writes : list PendingWrite)
    (taskId : string) (d : db) :
  client_used_and_released (putWrites WRITES_IDX_MAP config writes taskId d).2.
Proof.
  unfold client_used_and_released, putWrites. rewrite bind_connect.
  destruct (pool_connect d) as [[e|[]] d0]; [by left|]. right.
  rewrite transaction_frame, bind_query.
  destruct (client_command (Some "BEGIN") [] d0) as [[e|[]] d1].
  { destruct (client_command (Some "ROLLBACK") [] d1) as [rr d2]. simpl.
    eexists (_ :: _ :: []). split; [done|]. solve_queries. }
  rewrite bind_query.
  match goal with
  | |- context [client_command (Some ?q) ?vs d1] =>
      destruct (client_command (Some q) vs d1) as [[e|[]] d2]
  end.
  { destruct (client_command (Some "ROLLBACK") [] d2) as [rr d3]. simpl.
    eexists (_ :: _ :: _ :: []). split; [done|]. solve_queries. }
  rewrite query_run.
  destruct (client_command (Some "COMMIT") [] d2) as [[e|[]] d3].
  { destruct (client_command (Some "ROLLBACK") [] d3) as [rr d4]. simpl.
    eexists (_ :: _ :: _ :: _ :: []). split; [done|]. solve_queries. }
  simpl. eexists (_ :: _ :: _ :: []). split; [done|]. solve_queries.
Qed.

(** X18: [setup] and [putWrites] never leak a client and never touch the store
    outside it: either [pool.connect()] fails and nothing else happens, or
    everything they do between getting the client and releasing it is a
    query on that client, and the release is their last action. *)
Theorem client_released_last (config : RunnableConfig)
    (writes : list PendingWrite) (taskId : string) (d : db) :
  client_used_and_released (setup MIGRATIONS d).2
  ∧ client_used_and_released
      (putWrites WRITES_IDX_MAP config writes taskId d).2.
Proof. split; [apply setup_client|apply putWrites_client]. Qed.

End ClientDiscipline.

(** ** Reading checkpoints *)

Section ReadsMore.
Context `{serde : SerializerProtocol} `{platform : Platform} `{sql : SqlModule}.
Context `{realm : Realm}.
Context {N : Type} `{NumberToken N}.
Context {V : Type} `{VersionToken V}.
Context {db : Type} `{pool : PgPool db}.

(** X19: [getTuple] makes one query on the pool and nothing else: it takes no
    client and opens no transaction.  A failure of that query is the
    failure of [getTuple], unchanged; an answer without rows gives
    [undefined]; any other answer gives a tuple. *)
Theorem getTuple_single_query (config : RunnableConfig) (d : db) :
  let c := default {| thread_id := None; checkpoint_ns := None;
                      checkpoint_id := None |} (configurable config) in
  let text :=
    SELECT_SQL +:+ (if truthy (checkpoint_id c) then WHERE_EXACT
                    else WHERE_LATEST) in
  let args :=
    js_of_opt (thread_id c) :: Str (default EmptyString (checkpoint_ns c))
    :: (if truthy (checkpoint_id c) then [js_of_opt (checkpoint_id c)] else []) in
  let '(answer, d1) := pool_select_rows text args d in
  let '(r, d', ev) := getTuple config d in
  d' = d1
  ∧ ev = [PoolQuery text args (is_ok answer)]
  ∧ match answer with
    | inl e => r = inl e
    | inr [] => r = inr None
    | inr (_ :: _) => ∃ t, r = inr (Some t)
    end.
Proof.
  intros c text args. unfold getTuple. fold c. unfold text, args.
  destruct (truthy (checkpoint_id c)); rewrite bind_run; unfold pool_query;
    destruct (pool_select_rows _ _ d) as [[e|[|row rows]] d1]; simpl;
    split_and!; try done; by eexists.
Qed.

(** X20: [getTuple] and [list] build the same tuple from a row: checkpoint,
    metadata and pending writes always agree, and the whole tuple agrees
    when the row's thread and namespace are the ones [getTuple] was asked
    for.  Rows after the first are ignored by [getTuple]. *)
Theorem getTuple_agrees_with_list (config : RunnableConfig) (d d1 : db)
    (row : CheckpointRow) (rows : list CheckpointRow) :
  let c := default {| thread_id := None; checkpoint_ns := None;
                      checkpoint_id := None |} (configurable config) in
  let text :=
    SELECT_SQL +:+ (if truthy (checkpoint_id c) then WHERE_EXACT
                    else WHERE_LATEST) in
  let args :=
    js_of_opt (thread_id c) :: Str (default EmptyString (checkpoint_ns c))
    :: (if truthy (checkpoint_id c) then [js_of_opt (checkpoint_id c)] else []) in
  pool_select_rows text args d = (inr (row :: rows), d1) →
  ∃ t,
    (getTuple config d).1.1 = inr (Some t)
    ∧ tuple_checkpoint t = tuple_checkpoint (list_tuple row)
    ∧ tuple_metadata t = tuple_metadata (list_tuple row)
    ∧ tuple_pendingWrites t = tuple_pendingWrites (list_tuple row)
    ∧ (thread_id c = Some (row_thread_id row) →
       row_checkpoint_ns row = Some (default EmptyString (checkpoint_ns c)) →
       t = list_tuple row).
Proof.
  intros c text args Hrows. unfold getTuple. fold c.
  unfold text, args in Hrows.
  destruct (truthy (checkpoint_id c)); rewrite bind_run; unfold pool_query;
    rewrite Hrows; simpl; eexists; (split_and!; [done..|]);
    intros Hthread Hns; unfold list_tuple; by rewrite Hthread, Hns.
Qed.

(** X21: On a checkpoint table, [getTuple] for a config without a thread id
    finds nothing, whatever the table holds: the undefined thread id is
    sent as NULL, which no row's [thread_id] equals. *)
Theorem getTuple_without_thread_id (config : RunnableConfig)
    (table : list CheckpointRow) :
  configurable config ?. thread_id = None →
  (getTuple (pool := table_pool) config table).1.1 = inr None.
Proof.
  intros Hthread. unfold getTuple.
  set (c := default _ (configurable config)).
  assert (thread_id c = None) as Hc.
  { unfold c. by destruct (configurable config). }
  rewrite Hc.
  assert (∀ (P : CheckpointRow → Prop) `{∀ r, Decision (P r)},
            (∀ r, ¬ P r) → filter P table = []) as Hnone.
  { intros P HP Hnot. induction table as [|r rs IH]; [done|].
    rewrite filter_cons. destruct (decide (P r)); [by destruct (Hnot r)|done]. }
  destruct (truthy (checkpoint_id c)); rewrite bind_run; unfold pool_query;
    cbn [pool_select_rows table_pool].
  - rewrite select_exact, Hnone; [done|]. by intros r.
  - rewrite select_latest, Hnone; [done|]. by intros r.
Qed.

(** X22: [list] makes one query on the pool, with the clause and the arguments
    of [_searchWhere], always ordered by descending [checkpoint_id] and
    limited exactly when a limit is given, the limit written as the
    template literal converts that number to a string.  A failure of the query is the
    failure of [list]; otherwise [list] yields one tuple per row, in the
    order of the rows, each identified by its own row's thread, namespace
    and checkpoint id, with a parent config exactly when the row's
    [parent_checkpoint_id] is non-empty. *)
Theorem list_run (config : RunnableConfig)
    (options : option (CheckpointListOptions N)) (d : db) :
  let clause :=
    _searchWhere (Some config) (options ?. opt_filter) (options ?. opt_before) in
  let ordered := (SELECT_SQL +:+ clause.1) +:+ " ORDER BY checkpoint_id DESC" in
  let text :=
    match options ?. opt_limit with
    | Some n => ordered +:+ (" LIMIT " +:+ number_toString n)
    | None => ordered
    end in
  let '(answer, d1) := pool_select_rows text clause.2 d in
  let '(r, d', ev) := list_checkpoints config options d in
  d' = d1
  ∧ ev = [PoolQuery text clause.2 (is_ok answer)]
  ∧ match answer with
    | inl e => r = inl e
    | inr rows =>
        ∃ tuples,
          r = inr tuples
          ∧ length tuples = length rows
          ∧ ∀ (i : nat) row,
              rows !! i = Some row →
              ∃ t,
                tuples !! i = Some t
                ∧ tuple_config t
                  = {| configurable :=
                         Some {| thread_id := Some (row_thread_id row);
                                 checkpoint_ns := row_checkpoint_ns row;
                                 checkpoint_id := Some (row_checkpoint_id row) |} |}
                ∧ (is_Some (tuple_parentConfig t)
                   ↔ truthy (row_parent_checkpoint_id row) = true)
    end.
Proof.
  intros clause ordered text. unfold list_checkpoints.
  fold clause. destruct clause as [where_ args] eqn:Hclause.
  cbn [fst snd] in ordered, text |- *. fold ordered. fold text.
  rewrite bind_run. unfold pool_query.
  destruct (pool_select_rows text args d) as [[e|rows] d1]; simpl;
    [done|]. split_and!; [done..|].
  eexists. split_and!; [done|apply length_fmap|].
  intros i row Hrow. exists (list_tuple row). split_and!.
  - by rewrite list_lookup_fmap, Hrow.
  - done.
  - unfold list_tuple. simpl.
    destruct (truthy (row_parent_checkpoint_id row)); split; done.
Qed.

End ReadsMore.

(** ** Search clause *)

Section SearchMore.
Context `{platform : Platform}.

Lemma searchWhere_numbered (config : option RunnableConfig)
    (filter : option (gmap string any)) (before : option RunnableConfig) :
  _searchWhere config filter before
  = numbered_clause (search_predicates config filter before).
Proof.
  unfold _searchWhere, search_predicates.
  destruct (config ?. configurable) as [[t [n|] [i|]]|];
    (destruct filter as [f|];
     [rewrite filter_nonempty_size; destruct (bool_decide (f = ∅))|]);
    destruct (before ?. configurable ?. checkpoint_id) as [b|];
    reflexivity.
Qed.

(** X23: The clause of [_searchWhere] is empty exactly when there is no
    argument, and otherwise starts with the WHERE keyword; there are never
    more than five arguments; and whenever the config has a [configurable]
    object the first argument is its thread id, even an undefined one. *)
Theorem searchWhere_shape (config : option RunnableConfig)
    (filter : option (gmap string any)) (before : option RunnableConfig) :
  let '(clause, args) := _searchWhere config filter before in
  (clause = EmptyString ↔ args = [])
  ∧ (args ≠ [] → String.prefix "WHERE " clause = true)
  ∧ (length args ≤ 5)%nat
  ∧ (∀ c, config ?. configurable = Some c →
          args !! 0%nat = Some (js_of_opt (thread_id c))).
Proof.
  rewrite searchWhere_numbered. unfold numbered_clause.
  split_and!.
  - destruct (search_predicates config filter before) as [|p ps];
      [done|]. split; [|done]. intros Hclause. by rewrite append_cons in Hclause.
  - destruct (search_predicates config filter before) as [|p ps];
      [done|]. intros _. apply prefix_spec. by eexists.
  - rewrite length_fmap. unfold search_predicates.
    rewrite !length_app.
    destruct (config ?. configurable) as [[t [n|] [i|]]|];
      (destruct filter as [f|]; [destruct (bool_decide (f = ∅))|]);
      destruct (before ?. configurable ?. checkpoint_id) as [b|];
      simpl; lia.
  - intros c Hc. unfold search_predicates. by rewrite Hc.
Qed.

End SearchMore.

(** ** The statements on concrete inputs *)

#[local] Existing Instances text_serde bytewise_platform named_sql string_version
  standard_realm.

(** [put] with a [configurable] object that has no thread id is not
    rejected: on a pool where every call succeeds it runs its transaction
    and returns the next config, with an undefined thread id. *)
Lemma put_without_thread_id_proceeds :
  let config :=
    {| configurable := Some {| thread_id := None; checkpoint_ns := None;
                               checkpoint_id := None |} |} in
  let checkpoint :=
    {| id := "c1"; channel_values := ∅; pending_sends := [];
       other_fields := ∅ |} in
  configurable config ?. thread_id = None
  ∧ put (V := string) (pool := scripted_pool (λ _, None) [] [])
      config checkpoint ∅ (Some ∅) 0%nat
    = (inr {| configurable :=
                Some {| thread_id := None; checkpoint_ns := Some EmptyString;
                        checkpoint_id := Some "c1" |} |},
       4%nat,
       [Connect true;
        ClientQuery (Some "BEGIN") [] true;
        ClientQuery (Some "UPSERT_CHECKPOINTS_SQL")
          [Undefined; Str EmptyString; Str "c1"; Undefined; Bytes [];
           Str EmptyString] true;
        ClientQuery (Some "COMMIT") [] true;
        Release]).
Proof. split; [reflexivity|]. vm_compute. reflexivity. Qed.

(** C3: [getTuple] given the empty string as [checkpoint_id] does not look
    for the row with exactly that identifier (there is none in this table,
    so the answer would be [undefined]): it sends the latest-row query and
    answers with the greatest identifier of the thread. *)
Lemma getTuple_empty_checkpoint_id_selects_latest :
  let config :=
    {| configurable := Some {| thread_id := Some "t1"; checkpoint_ns := None;
                               checkpoint_id := Some EmptyString |} |} in
  let table := [bare_row "t1" "c1"; bare_row "t1" "c2"; bare_row "t2" "c3"] in
  match getTuple (pool := table_pool) config table with
  | (inr (Some t), _, ev) =>
      tuple_config t
      = {| configurable :=
             Some {| thread_id := Some "t1"; checkpoint_ns := Some EmptyString;
                     checkpoint_id := Some "c2" |} |}
      ∧ ev = [PoolQuery (SELECT_SQL +:+ WHERE_LATEST)
                [Str "t1"; Str EmptyString] true]
  | _ => False
  end.
Proof. vm_compute. split; reflexivity. Qed.

(** No identity, an empty metadata filter and no cursor: the clause is
    empty. *)
Lemma searchWhere_clause_witness :
  _searchWhere None (Some ∅) None = (EmptyString, []).
Proof.
  refine (proj2 (proj2 (searchWhere_clause None (Some ∅) None)) _ _ _).
  - reflexivity.
  - by right.
  - reflexivity.
Defined.

(** An empty batch on a pool where every call succeeds. *)
Lemma putWrites_empty_batch_witness :
  client_statements
    (putWrites (pool := scripted_pool (λ _, None) [] []) ∅
       {| configurable := None |} [] "task-1" 0%nat).2
  = [(Some "BEGIN", []); (Some "UPSERT_CHECKPOINT_WRITES_SQL", []);
     (Some "COMMIT", [])].
Proof.
  pose proof (putWrites_empty_batch (pool := scripted_pool (λ _, None) [] []) ∅
                {| configurable := None |} "task-1" 0%nat) as (_ & _ & Hrun).
  exact (proj2 Hrun eq_refl).
Defined.

(** [setup] on a fresh journal store with two migrations. *)
Lemma setup_migrates_in_one_transaction_witness :
  Forall (λ m, m ∉ transaction_control) example_migrations
  ∧ let '(r, s', _) :=
      setup (pool := tx_pool journal_statement journal_ledger no_fault)
        example_migrations {| committed := []; working := None |} in
    match r with
    | inl _ => committed s' = []
    | inr _ =>
        ∃ version,
          version_of_ledger_read (journal_ledger []) = inr version
          ∧ apply_script journal_statement
              (migration_script example_migrations version) []
            = (inr (), committed s')
          ∧ working s' = None
    end.
Proof.
  assert (Forall (λ m, m ∉ transaction_control) example_migrations) as HM.
  { repeat constructor; intros Hin;
      repeat (apply elem_of_cons in Hin as [Hin|Hin]; [discriminate Hin|]);
      by apply elem_of_nil in Hin. }
  split; [exact HM|].
  exact (proj2 (proj2
           (setup_migrates_in_one_transaction example_migrations
              (pool := scripted_pool (λ _, None) [] [])
              journal_statement journal_ledger no_fault HM)) []).
Defined.

(** The same run, evaluated: the ledger is missing, so the version is
    [-1] and both migrations are committed, each followed by its ledger
    entry. *)
Example setup_on_fresh_store :
  (setup (pool := tx_pool journal_statement journal_ledger no_fault)
     example_migrations {| committed := []; working := None |}).1
  = (inr (),
     {| committed :=
          ["CREATE TABLE IF NOT EXISTS checkpoint_migrations (v INTEGER PRIMARY KEY)";
           INSERT_VERSION_SQL;
           "CREATE TABLE IF NOT EXISTS checkpoints (thread_id TEXT NOT NULL)";
           INSERT_VERSION_SQL];
        working := None |}).
Proof. vm_compute. reflexivity. Qed.

(** A run in which COMMIT fails: ROLLBACK follows, the failure is rethrown
    and nothing is committed. *)
Example setup_failing_migration :
  setup (pool := tx_pool journal_statement journal_ledger
                   (λ name _, if String.eqb name "COMMIT"
                              then Some {| message := "commit failed" |}
                              else None))
    example_migrations {| committed := []; working := None |}
  = (inl {| message := "commit failed" |},
     {| committed := []; working := None |},
     [Connect true;
      ClientQuery (Some "BEGIN") [] true;
      ClientQuery (Some SELECT_VERSION_SQL) [] false;
      ClientQuery (js_index example_migrations 0) [] true;
      ClientQuery (Some INSERT_VERSION_SQL) [Num 0] true;
      ClientQuery (js_index example_migrations 1) [] true;
      ClientQuery (Some INSERT_VERSION_SQL) [Num 1] true;
      ClientQuery (Some "COMMIT") [] false;
      ClientQuery (Some "ROLLBACK") [] true;
      Release]).
Proof. vm_compute. reflexivity. Qed.

Ltac not_transaction_control :=
  let Hin := fresh "Hin" in
  intros Hin;
  repeat (apply elem_of_cons in Hin as [Hin|Hin]; [discriminate Hin|]);
  by apply elem_of_nil in Hin.

(** Nothing an ordinary object inherits in a standard engine is a
    number. *)
Lemma standard_prototype_no_number (name : string) (n : Z) :
  Object_prototype (Realm := standard_realm) !! name ≠ Some (Num n).
Proof.
  intros Hname.
  assert (map_Forall (λ _ v, match v with Num _ => False | _ => True end)
            (Object_prototype (Realm := standard_realm))) as Hall.
  { apply map_Forall_to_list. vm_compute. repeat constructor. }
  exact (Hall name (Num n) Hname).
Qed.

(** Two writes to the reserved channel [__error__] in one batch land in the
    same slot. *)
Lemma dumpWrites_slots_collide_only_reserved_witness :
  let reserved : gmap string Z := {[ "__error__" := -1 ]} in
  write_idx
    <$> _dumpWrites reserved (Some "t1") (Some EmptyString) (Some "c1") "task-1"
          [("__error__", Str "a"); ("__error__", Str "b")]
  = [Num (-1); Num (-1)]
  ∧ js_get (Num <$> reserved) "__error__" ≠ Undefined.
Proof.
  intros reserved. split; [reflexivity|].
  refine (proj1
            (dumpWrites_slots_collide_only_reserved reserved (Some "t1")
               (Some EmptyString) (Some "c1") "task-1"
               [("__error__", Str "a"); ("__error__", Str "b")] 0 1
               (Some "t1", Some EmptyString, Some "c1", "task-1", Num (-1),
                "__error__", "text", String.list_byte_of_string "a")
               (Some "t1", Some EmptyString, Some "c1", "task-1", Num (-1),
                "__error__", "text", String.list_byte_of_string "b")
               _ _ _ _ _ _)).
  - intros channel z [<- <-]%lookup_singleton_Some. lia.
  - intros name n Hname. by apply standard_prototype_no_number in Hname.
  - reflexivity.
  - reflexivity.
  - lia.
  - reflexivity.
Defined.

(** One write, read back from the writes table. *)
Lemma writes_round_trip_witness :
  _loadWrites
    (Some [(String.list_byte_of_string "task-1", String.list_byte_of_string "a",
            String.list_byte_of_string "text", String.list_byte_of_string "1")])
  = [("task-1", "a", Str "1")].
Proof.
  refine (writes_round_trip ∅ (Some "t1") (Some EmptyString) (Some "c1")
            "task-1" [("a", Str "1")] _ _ _).
  - intros channel value Hin. apply list_elem_of_singleton in Hin.
    injection Hin as -> ->. reflexivity.
  - repeat constructor.
Defined.

(** [put] of a checkpoint with one versioned channel on a pool where every
    call succeeds. *)
Lemma put_run_witness :
  put (V := string) (pool := obliging_pool) example_config
    (example_checkpoint "c1") ∅ (Some {[ "x" := "00001" ]}) 0%nat
  = (inr {| configurable :=
              Some {| thread_id := Some "t1"; checkpoint_ns := Some EmptyString;
                      checkpoint_id := Some "c1" |} |},
     5%nat,
     [Connect true;
      ClientQuery (Some "BEGIN") [] true;
      ClientQuery (Some "UPSERT_CHECKPOINT_BLOBS_SQL")
        [Str "t1"; Str EmptyString; Str "x"; Str "00001"; Str "text";
         Bytes (String.list_byte_of_string "1")] true;
      ClientQuery (Some "UPSERT_CHECKPOINTS_SQL")
        [Str "t1"; Str EmptyString; Str "c1"; Str "c0"; Bytes [];
         Str EmptyString] true;
      ClientQuery (Some "COMMIT") [] true;
      Release]).
Proof.
  pose proof (put_run (V := string) (pool := obliging_pool) example_config
                example_configurable (example_checkpoint "c1") ∅
                (Some {[ "x" := "00001" ]}) 0%nat eq_refl) as Hrun.
  destruct (put _ _ _ _ _) as [[[e|next] d'] ev] eqn:Hput.
  - vm_compute in Hput. discriminate Hput.
  - destruct Hrun as [-> ->]. vm_compute in Hput.
    injection Hput as <-. vm_compute. reflexivity.
Defined.

(** The config returned by that [put] makes [getTuple] look up thread
    [t1], the root namespace and checkpoint [c1]. *)
Lemma put_result_addresses_checkpoint_witness :
  ∃ ok,
    (getTuple (pool := obliging_pool)
       {| configurable :=
            Some {| thread_id := Some "t1"; checkpoint_ns := Some EmptyString;
                    checkpoint_id := Some "c1" |} |} 5%nat).2
    = [PoolQuery (SELECT_SQL +:+ WHERE_EXACT)
         [Str "t1"; Str EmptyString; Str "c1"] ok].
Proof.
  refine (proj1
            (put_result_addresses_checkpoint (V := string)
               (pool := obliging_pool) example_config example_configurable
               (example_checkpoint "c1") ∅ (Some {[ "x" := "00001" ]})
               0%nat 5%nat _
               (put (V := string) (pool := obliging_pool) example_config
                  (example_checkpoint "c1") ∅ (Some {[ "x" := "00001" ]})
                  0%nat).2
               eq_refl _ _)).
  - discriminate.
  - vm_compute. reflexivity.
Defined.

(** Checkpoint [c2] put with the config returned for [c1] is written with
    [c1] as its parent. *)
Lemma put_chains_parent_witness :
  ClientQuery (Some "UPSERT_CHECKPOINTS_SQL")
    [Str "t1"; Str EmptyString; Str "c2"; Str "c1"; Bytes []; Str EmptyString]
    true
  ∈ (put (V := string) (pool := obliging_pool)
       {| configurable :=
            Some {| thread_id := Some "t1"; checkpoint_ns := Some EmptyString;
                    checkpoint_id := Some "c1" |} |}
       (example_checkpoint "c2") ∅ None 4%nat).2.
Proof.
  refine (proj1
            (put_chains_parent (V := string) (pool := obliging_pool)
               example_config example_configurable
               (example_checkpoint "c1") (example_checkpoint "c2") ∅ ∅
               None None 0%nat 4%nat 8%nat _ _
               (put (V := string) (pool := obliging_pool) example_config
                  (example_checkpoint "c1") ∅ None 0%nat).2
               _ eq_refl _ _)).
  - vm_compute. reflexivity.
  - vm_compute. reflexivity.
Defined.

(** [put] on the journal store: the two upserts are committed together. *)
Lemma put_atomic_witness :
  let '(r, s', _) :=
    put (V := string) (pool := tx_pool journal_statement journal_ledger no_fault)
      example_config (example_checkpoint "c1") ∅ (Some {[ "x" := "00001" ]})
      {| committed := []; working := None |} in
  match r with
  | inl _ => committed s' = []
  | inr _ =>
      ∃ conf,
        configurable example_config = Some conf
        ∧ apply_script journal_statement
            (put_script conf (example_checkpoint "c1") ∅
               (Some {[ "x" := "00001" ]})) []
          = (inr (), committed s')
        ∧ working s' = None
  end.
Proof.
  refine (put_atomic (V := string) journal_statement journal_ledger no_fault
            example_config (example_checkpoint "c1") ∅
            (Some {[ "x" := "00001" ]}) [] _ _);
    not_transaction_control.
Defined.

(** [putWrites] of one ordinary write on the journal store. *)
Lemma putWrites_atomic_witness :
  let '(r, s', _) :=
    putWrites (pool := tx_pool journal_statement journal_ledger no_fault)
      {[ "__start__" := 0 ]} example_config [("a", Str "1")] "task-1"
      {| committed := []; working := None |} in
  match r with
  | inl _ => committed s' = []
  | inr _ => committed s' = ["INSERT_CHECKPOINT_WRITES_SQL"] ∧ working s' = None
  end.
Proof.
  pose proof (putWrites_atomic {[ "__start__" := 0 ]} journal_statement
                journal_ledger no_fault example_config [("a", Str "1")]
                "task-1" []) as Hrun.
  destruct (putWrites _ _ _ _ _) as [[[e|[]] s'] ev].
  - apply Hrun; not_transaction_control.
  - destruct Hrun as [Hrun ->]; [not_transaction_control..|].
    split; [|done]. apply (f_equal snd) in Hrun. symmetry. exact Hrun.
Defined.

(** The store rejects the write: ROLLBACK follows and the store's failure
    is what [putWrites] throws. *)
Lemma putWrites_rethrows_witness :
  (putWrites
     (pool := scripted_pool (failing_at 2 {| message := "duplicate key" |}) [] [])
     ∅ example_config [("a", Str "1")] "task-1" 0%nat).1.1
  = inl {| message := "duplicate key" |}.
Proof.
  exact (proj1
           (putWrites_rethrows
              (pool := scripted_pool
                         (failing_at 2 {| message := "duplicate key" |}) [] [])
              ∅ example_config [("a", Str "1")] "task-1" 0%nat 1%nat 2%nat
              3%nat {| message := "duplicate key" |} eq_refl eq_refl eq_refl)).
Defined.

(** The journal store's answer before any statement was applied counts as
    a missing ledger. *)
Lemma ledger_missing_by_substring_witness :
  (read_version (pool := tx_pool journal_statement journal_ledger no_fault)
     {| committed := []; working := None |}).1.1
  = inr (-1).
Proof.
  refine (proj1
            (ledger_missing_by_substring
               (pool := tx_pool journal_statement journal_ledger no_fault)
               {| committed := []; working := None |}
               {| committed := []; working := None |}
               {| message := "error: " +:+ LEDGER_MISSING |} eq_refl) _).
  exists "error: ", EmptyString. vm_compute. reflexivity.
Defined.

(** With the ledger at version 0, only the second migration is left. *)
Lemma migration_script_bounds_witness :
  migration_script example_migrations 0
  = [(Some "CREATE TABLE IF NOT EXISTS checkpoints (thread_id TEXT NOT NULL)", []);
     (Some INSERT_VERSION_SQL, [Num 1])].
Proof.
  refine (eq_trans (proj1 (migration_script_bounds example_migrations 0) _) _).
  - lia.
  - reflexivity.
Defined.

(** [setup] with both migrations already recorded in the ledger. *)
Lemma setup_up_to_date_witness :
  let '(r, s', ev) :=
    setup (pool := tx_pool journal_statement migrated_ledger no_fault)
      example_migrations
      {| committed := example_migrations; working := None |} in
  committed s' = example_migrations
  ∧ Forall (λ s, s ∈ [(Some "BEGIN", []); (Some SELECT_VERSION_SQL, []);
                      (Some "COMMIT", []); (Some "ROLLBACK", [])])
           (client_statements ev).
Proof.
  refine (setup_up_to_date example_migrations journal_statement
            migrated_ledger no_fault example_migrations 1 [] eq_refl _).
  simpl. lia.
Defined.

(** [setup] with two migrations on a fresh journal store whose transactions
    abort at the first failure. *)
Lemma setup_missing_ledger_aborts_witness :
  setup (pool := pg_pool journal_statement journal_ledger) example_migrations
    {| pg_committed := []; pg_phase := Idle |}
  = (inl TRANSACTION_ABORTED, {| pg_committed := []; pg_phase := Idle |},
     [Connect true;
      ClientQuery (Some "BEGIN") [] true;
      ClientQuery (Some SELECT_VERSION_SQL) [] false;
      ClientQuery
        (Some "CREATE TABLE IF NOT EXISTS checkpoint_migrations (v INTEGER PRIMARY KEY)")
        [] false;
      ClientQuery (Some "ROLLBACK") [] true;
      Release]).
Proof.
  refine (setup_missing_ledger_aborts journal_statement journal_ledger
            "CREATE TABLE IF NOT EXISTS checkpoint_migrations (v INTEGER PRIMARY KEY)"
            ["CREATE TABLE IF NOT EXISTS checkpoints (thread_id TEXT NOT NULL)"]
            [] {| message := "error: " +:+ LEDGER_MISSING |} eq_refl _ _).
  - vm_compute. reflexivity.
  - not_transaction_control.
Defined.

(** On a table that holds checkpoint [c1] of thread [t1] in the root
    namespace, [getTuple] by that identity returns what [list] yields for
    the row. *)
Lemma getTuple_agrees_with_list_witness :
  let config :=
    {| configurable := Some {| thread_id := Some "t1"; checkpoint_ns := None;
                               checkpoint_id := Some "c1" |} |} in
  ∃ t,
    (getTuple (pool := table_pool) config [bare_row "t1" "c1"]).1.1
    = inr (Some t)
    ∧ t = list_tuple (bare_row "t1" "c1").
Proof.
  intros config.
  destruct (getTuple_agrees_with_list (pool := table_pool) config
              [bare_row "t1" "c1"] [bare_row "t1" "c1"] (bare_row "t1" "c1") [])
    as (t & Ht & _ & _ & _ & Hsame).
  - vm_compute. reflexivity.
  - exists t. split; [exact Ht|]. apply Hsame; reflexivity.
Defined.

(** Without a [configurable] object [getTuple] finds nothing, whatever the
    table holds. *)
Lemma getTuple_without_thread_id_witness :
  (getTuple (pool := table_pool) {| configurable := None |}
     [bare_row "t1" "c1"]).1.1
  = inr None.
Proof.
  exact (getTuple_without_thread_id {| configurable := None |}
           [bare_row "t1" "c1"] eq_refl).
Defined.

(** The clause for an identity alone starts with the keyword. *)
Lemma searchWhere_shape_witness :
  String.prefix "WHERE " (_searchWhere (Some example_config) None None).1 = true.
Proof.
  pose proof (searchWhere_shape (Some example_config) None None) as Hshape.
  destruct (_searchWhere (Some example_config) None None) as [clause args]
    eqn:Hclause.
  destruct Hshape as (_ & Hprefix & _ & Hfirst). apply Hprefix.
  intros ->. by specialize (Hfirst example_configurable eq_refl).
Defined.

(** A batch of two writes is sent as two parameters. *)
Lemma putWrites_one_parameter_per_write_witness :
  ∃ values ok,
    (putWrites (pool := obliging_pool) ∅ example_config
       [("a", Str "1"); ("b", Str "2")] "task-1" 0%nat).2 !! 2%nat
    = Some (ClientQuery (Some "INSERT_CHECKPOINT_WRITES_SQL") values ok)
    ∧ length values = 2%nat.
Proof.
  destruct (putWrites_one_parameter_per_write (pool := obliging_pool) ∅
              example_config [("a", Str "1"); ("b", Str "2")] "task-1"
              0%nat 1%nat 2%nat eq_refl eq_refl)
    as (values & ok & Hsent & Hlength & _).
  exists values, ok. split; [exact Hsent|exact Hlength].
Defined.
